(** * FlashCardsApp: the CSV codec, the deck and its persistence

    A shallow embedding of [FlashcardsApp.jsx] (the revision with
    localStorage persistence).  JavaScript strings are modelled as
    [string]: a sequence of 8-bit code units, read as the Latin-1 range of
    UTF-16.  The codec only ever compares characters with the comma, the
    double quote, the line feed, the carriage return and the white-space
    set of [String.prototype.trim], all of which lie in that range. *)

From Stdlib Require Import Strings.String Strings.Ascii Lists.List Bool.Bool.
From Stdlib Require Import Arith.Arith NArith.NArith ZArith.ZArith.
From Stdlib Require Import Sorting.Permutation Lia.
From Stdlib Require Import Numbers.DecimalString Numbers.DecimalN.
Import ListNotations.
Open Scope string_scope.

(** ** Characters and string primitives of the host language *)

Module JsString.

Definition dquote : ascii := Eval cbv in ascii_of_nat 34.
Definition comma : ascii := ","%char.
Definition LF : ascii := Eval cbv in ascii_of_nat 10.
Definition CR : ascii := Eval cbv in ascii_of_nat 13.

(** [s += ch] *)
Definition push_char (s : string) (ch : ascii) : string := s ++ String ch "".

(** [!s] on a string: only the empty string is falsy. *)
Definition falsy (s : string) : bool :=
  match s with
  | EmptyString => true
  | String _ _ => false
  end.

(** [s.includes(c)] for a one-character needle. *)
Fixpoint includes (s : string) (c : ascii) : bool :=
  match s with
  | EmptyString => false
  | String ch rest => Ascii.eqb ch c || includes rest c
  end.

(** White space and line terminators removed by [trim], within the 8-bit
    range: TAB, LF, VT, FF, CR, SP and NBSP. *)
Definition isWhiteSpace (c : ascii) : bool :=
  let n := nat_of_ascii c in
  Nat.eqb n 9 || Nat.eqb n 10 || Nat.eqb n 11 || Nat.eqb n 12
  || Nat.eqb n 13 || Nat.eqb n 32 || Nat.eqb n 160.

Fixpoint trimStart (s : string) : string :=
  match s with
  | EmptyString => EmptyString
  | String c rest => if isWhiteSpace c then trimStart rest else s
  end.

Fixpoint trimEnd (s : string) : string :=
  match s with
  | EmptyString => EmptyString
  | String c rest =>
      match trimEnd rest with
      | EmptyString => if isWhiteSpace c then EmptyString else String c EmptyString
      | kept => String c kept
      end
  end.

(** [s.trim()] *)
Definition trim (s : string) : string := trimEnd (trimStart s).

(** [text.split(/\r?\n/)]: a line feed, or a carriage return immediately
    followed by a line feed, ends the current piece; a lone carriage
    return is an ordinary character.  The result is never empty. *)
Fixpoint splitLines (text : string) : list string :=
  match text with
  | EmptyString => [EmptyString]
  | String c rest =>
      let keep :=
        match splitLines rest with
        | piece :: pieces => String c piece :: pieces
        | [] => [String c EmptyString]
        end in
      if Ascii.eqb c LF then EmptyString :: splitLines rest
      else if Ascii.eqb c CR then
        match rest with
        | String c' rest' =>
            if Ascii.eqb c' LF then EmptyString :: splitLines rest' else keep
        | EmptyString => keep
        end
      else keep
  end.

(** [pieces.join(sep)] *)
Fixpoint join (sep : string) (pieces : list string) : string :=
  match pieces with
  | [] => EmptyString
  | [p] => p
  | p :: rest => p ++ sep ++ join sep rest
  end.

End JsString.

(** ** The CSV codec *)

Module Codec.
Import JsString.

(** The loop of [splitCSVLine]: [line] is the part of the line from index
    [i] on, [res], [cur] and [inQuotes] are the loop's variables, returned
    as they are when the loop ends.  The look-ahead at [line[i + 1]] is the
    match on [rest]; past the end of the line it reads [undefined] and the
    comparison with the double quote fails. *)
Fixpoint scan (line : string) (res : list string) (cur : string)
  (inQuotes : bool) : list string * string * bool :=
  match line with
  | EmptyString => (res, cur, inQuotes)
  | String ch rest =>
      if Ascii.eqb ch dquote then
        match rest with
        | String ch' rest' =>
            if inQuotes && Ascii.eqb ch' dquote
            then scan rest' res (push_char cur dquote) inQuotes
            else scan rest res cur (negb inQuotes)
        | EmptyString => scan rest res cur (negb inQuotes)
        end
      else if Ascii.eqb ch comma && negb inQuotes
      then scan rest (res ++ [cur]) EmptyString inQuotes
      else scan rest res (push_char cur ch) inQuotes
  end.

(** [res.push(cur); return res] after the loop. *)
Definition fields (final : list string * string * bool) : list string :=
  let '(res, cur, _) := final in res ++ [cur].

Definition splitCSVLine (line : string) : list string :=
  fields (scan line [] EmptyString false).

(** The value of [inQuotes] when the loop of [splitCSVLine] ends. *)
Definition endsInQuotes (line : string) : bool :=
  snd (scan line [] EmptyString false).

(** One parsed row, [{ question: q, answer: a }]. *)
Record QA : Set := mkQA { question : string; answer : string }.

(** [cols[i] || ''] *)
Definition col (cols : list string) (i : nat) : string :=
  nth i cols EmptyString.

(** The body of the [for (const line of rows)] loop of [parseCSV], as a
    transformer of [out]. *)
Definition parseRow (out : list QA) (line : string) : list QA :=
  if falsy line then out
  else
    let cols := splitCSVLine line in
    let q := trim (col cols 0) in
    let a := trim (col cols 1) in
    if negb (falsy q) || negb (falsy a) then out ++ [mkQA q a] else out.

(** A row that survives the [if (!line) continue] test, and a pair that
    passes the [if (q || a)] test. *)
Definition nonBlank (line : string) : bool := negb (falsy line).

Definition hasContent (p : QA) : Prop :=
  question p <> "" \/ answer p <> "".

Definition rowsOf (text : string) : list string :=
  map trim (splitLines text).

Definition parseCSV (text : string) : list QA :=
  fold_left parseRow (rowsOf text) [].

(** [s.replace] with the global pattern for one double quote and the
    replacement of two: every double quote is doubled. *)
Fixpoint doubleQuotes (s : string) : string :=
  match s with
  | EmptyString => EmptyString
  | String ch rest =>
      if Ascii.eqb ch dquote
      then String dquote (String dquote (doubleQuotes rest))
      else String ch (doubleQuotes rest)
  end.

(** The field printer inside [exportAllAsCSV], on a string. *)
Definition needsQuoting (s : string) : bool :=
  includes s comma || includes s dquote || includes s LF.

Definition csvField (s : string) : string :=
  if needsQuoting s
  then String dquote (doubleQuotes s ++ String dquote EmptyString)
  else s.

(** Number of double quotes in a string, and in a list of fields. *)
Fixpoint countQuotes (s : string) : nat :=
  match s with
  | EmptyString => 0
  | String ch rest => (if Ascii.eqb ch dquote then 1 else 0) + countQuotes rest
  end.

Definition totalQuotes (fields : list string) : nat :=
  fold_right (fun f n => countQuotes f + n) 0 fields.

(** Two double quotes next to each other somewhere in the line. *)
Fixpoint hasQuotePair (s : string) : bool :=
  match s with
  | EmptyString => false
  | String ch rest =>
      match rest with
      | String ch' _ => (Ascii.eqb ch dquote && Ascii.eqb ch' dquote) || hasQuotePair rest
      | EmptyString => false
      end
  end.

(** The tokenizer as the design describes it, field by field: a double
    quote that is immediately followed by another one while already inside
    quotes emits one literal quote and both are consumed; any other double
    quote toggles the flag and emits nothing; a comma outside quotes ends
    the field; every other character goes to the current field; the last
    field is emitted at the end of the line even if empty. *)
Definition emit (ch : ascii) (fs : list string) : list string :=
  match fs with
  | f :: rest => String ch f :: rest
  | [] => [String ch EmptyString]
  end.

Fixpoint tokenizeLine (line : string) (inQuotes : bool) : list string :=
  match line with
  | EmptyString => [EmptyString]
  | String ch rest =>
      if Ascii.eqb ch dquote then
        match rest with
        | String ch' rest' =>
            if inQuotes && Ascii.eqb ch' dquote
            then emit dquote (tokenizeLine rest' inQuotes)
            else tokenizeLine rest (negb inQuotes)
        | EmptyString => tokenizeLine rest (negb inQuotes)
        end
      else if Ascii.eqb ch comma && negb inQuotes
      then EmptyString :: tokenizeLine rest inQuotes
      else emit ch (tokenizeLine rest inQuotes)
  end.

(** The number of doubled quotes met inside quotes, the only quotes that
    are not delimiters. *)
Fixpoint literalQuotes (line : string) (inQuotes : bool) : nat :=
  match line with
  | EmptyString => 0
  | String ch rest =>
      if Ascii.eqb ch dquote then
        match rest with
        | String ch' rest' =>
            if inQuotes && Ascii.eqb ch' dquote
            then S (literalQuotes rest' inQuotes)
            else literalQuotes rest (negb inQuotes)
        | EmptyString => 0
        end
      else literalQuotes rest inQuotes
  end.

End Codec.

(** ** JSON values and the host's JSON codec

    [JSON.stringify] and [JSON.parse] are built-ins of the host language;
    they are modelled here after ECMA-262 on the values that can reach
    them.  A number is kept as its literal (the app never computes with
    numbers), object properties are kept in insertion order, and escapes
    [\uXXXX] above the 8-bit range are outside the alphabet of the model
    and rejected.  The model therefore follows the host on texts without
    such escapes, and in printing on values whose numbers are written in
    canonical form and whose keys are not integer-like; the decks the app
    builds hold strings only. *)

Module Json.
Import JsString.
Local Open Scope nat_scope.

#[warnings="-register-all"]
Inductive jsval : Type :=
| JNull
| JBool (b : bool)
| JNum (literal : string)
| JStr (s : string)
| JArr (items : list jsval)
| JObj (props : list (string * jsval)).

Definition backslash : ascii := Eval cbv in ascii_of_nat 92.

Definition hexDigit (n : nat) : ascii :=
  if n <? 10 then ascii_of_nat (48 + n) else ascii_of_nat (87 + n).

Definition hexValue (c : ascii) : option nat :=
  let n := nat_of_ascii c in
  if (48 <=? n) && (n <=? 57) then Some (n - 48)
  else if (97 <=? n) && (n <=? 102) then Some (n - 87)
  else if (65 <=? n) && (n <=? 70) then Some (n - 55)
  else None.

(** One code unit inside a JSON string (QuoteJSONString). *)
Definition escapeChar (c : ascii) : string :=
  let n := nat_of_ascii c in
  if Nat.eqb n 34 then String backslash (String dquote EmptyString)
  else if Nat.eqb n 92 then String backslash (String backslash EmptyString)
  else if Nat.eqb n 8 then String backslash "b"
  else if Nat.eqb n 12 then String backslash "f"
  else if Nat.eqb n 10 then String backslash "n"
  else if Nat.eqb n 13 then String backslash "r"
  else if Nat.eqb n 9 then String backslash "t"
  else if n <? 32 then
    String backslash
      ("u00" ++ String (hexDigit (n / 16)) (String (hexDigit (n mod 16)) EmptyString))
  else String c EmptyString.

Fixpoint escapeString (s : string) : string :=
  match s with
  | EmptyString => EmptyString
  | String c rest => escapeChar c ++ escapeString rest
  end.

Definition quoteJSONString (s : string) : string :=
  String dquote (escapeString s ++ String dquote EmptyString).

Fixpoint JSON_stringify (v : jsval) : string :=
  match v with
  | JNull => "null"
  | JBool true => "true"
  | JBool false => "false"
  | JNum literal => literal
  | JStr s => quoteJSONString s
  | JArr items => "[" ++ join "," (map JSON_stringify items) ++ "]"
  | JObj props =>
      "{" ++ join ","
               (map (fun kv => quoteJSONString (fst kv) ++ ":" ++ JSON_stringify (snd kv))
                    props)
          ++ "}"
  end.

(** *** Parsing *)

Definition isJsonWs (c : ascii) : bool :=
  let n := nat_of_ascii c in
  Nat.eqb n 32 || Nat.eqb n 9 || Nat.eqb n 10 || Nat.eqb n 13.

Fixpoint skipWs (s : string) : string :=
  match s with
  | EmptyString => EmptyString
  | String c rest => if isJsonWs c then skipWs rest else s
  end.

Definition unescape (e : ascii) : option ascii :=
  let n := nat_of_ascii e in
  if Nat.eqb n 34 then Some dquote
  else if Nat.eqb n 92 then Some backslash
  else if Nat.eqb n 47 then Some "/"%char
  else if Nat.eqb n 98 then Some (ascii_of_nat 8)
  else if Nat.eqb n 102 then Some (ascii_of_nat 12)
  else if Nat.eqb n 110 then Some LF
  else if Nat.eqb n 114 then Some CR
  else if Nat.eqb n 116 then Some (ascii_of_nat 9)
  else None.

Definition hex4 (h1 h2 h3 h4 : ascii) : option nat :=
  match hexValue h1, hexValue h2, hexValue h3, hexValue h4 with
  | Some a, Some b, Some c, Some d => Some (((a * 16 + b) * 16 + c) * 16 + d)
  | _, _, _, _ => None
  end.

Definition consChar (c : ascii) (r : option (string * string)) : option (string * string) :=
  match r with
  | Some (str, rest) => Some (String c str, rest)
  | None => None
  end.

(** The characters of a string literal after its opening quote, up to and
    including the closing quote; the result is the decoded string and the
    rest of the input. *)
Fixpoint parseStringBody (s : string) : option (string * string) :=
  match s with
  | EmptyString => None
  | String c r =>
      if Ascii.eqb c dquote then Some (EmptyString, r)
      else if Ascii.eqb c backslash then
        match r with
        | String e r1 =>
            if Ascii.eqb e "u"%char then
              match r1 with
              | String h1 (String h2 (String h3 (String h4 r2))) =>
                  match hex4 h1 h2 h3 h4 with
                  | Some n =>
                      if n <? 256 then consChar (ascii_of_nat n) (parseStringBody r2)
                      else None
                  | None => None
                  end
              | _ => None
              end
            else
              match unescape e with
              | Some ch => consChar ch (parseStringBody r1)
              | None => None
              end
        | EmptyString => None
        end
      else if nat_of_ascii c <? 32 then None
      else consChar c (parseStringBody r)
  end.

(** Number literals: the longest run of number characters, checked against
    the JSON number grammar by a small automaton. *)
Definition isDigit (c : ascii) : bool :=
  let n := nat_of_ascii c in (48 <=? n) && (n <=? 57).

Definition isNumberChar (c : ascii) : bool :=
  isDigit c || Ascii.eqb c "-"%char || Ascii.eqb c "+"%char
  || Ascii.eqb c "."%char || Ascii.eqb c "e"%char || Ascii.eqb c "E"%char.

Fixpoint spanNumber (s : string) : string * string :=
  match s with
  | EmptyString => (EmptyString, EmptyString)
  | String c rest =>
      if isNumberChar c
      then let (lit, rest') := spanNumber rest in (String c lit, rest')
      else (EmptyString, s)
  end.

Inductive numState : Set :=
| NStart | NMinus | NZero | NInt | NDot | NFrac | NExp | NExpSign | NExpDigits | NBad.

Definition numStep (st : numState) (c : ascii) : numState :=
  let digit := isDigit c in
  let zero := Ascii.eqb c "0"%char in
  let dot := Ascii.eqb c "."%char in
  let exp := Ascii.eqb c "e"%char || Ascii.eqb c "E"%char in
  let sign := Ascii.eqb c "-"%char || Ascii.eqb c "+"%char in
  match st with
  | NStart => if Ascii.eqb c "-"%char then NMinus
              else if zero then NZero else if digit then NInt else NBad
  | NMinus => if zero then NZero else if digit then NInt else NBad
  | NZero => if dot then NDot else if exp then NExp else NBad
  | NInt => if digit then NInt else if dot then NDot else if exp then NExp else NBad
  | NDot => if digit then NFrac else NBad
  | NFrac => if digit then NFrac else if exp then NExp else NBad
  | NExp => if sign then NExpSign else if digit then NExpDigits else NBad
  | NExpSign => if digit then NExpDigits else NBad
  | NExpDigits => if digit then NExpDigits else NBad
  | NBad => NBad
  end.

Fixpoint numRun (st : numState) (s : string) : numState :=
  match s with
  | EmptyString => st
  | String c rest => numRun (numStep st c) rest
  end.

Definition validNumber (s : string) : bool :=
  match numRun NStart s with
  | NZero | NInt | NFrac | NExpDigits => true
  | _ => false
  end.

Fixpoint stripPrefix (p s : string) : option string :=
  match p with
  | EmptyString => Some s
  | String c p' =>
      match s with
      | String c' s' => if Ascii.eqb c c' then stripPrefix p' s' else None
      | EmptyString => None
      end
  end.

(** Assignment to an own property: an existing key keeps its place. *)
Fixpoint setProp (k : string) (v : jsval) (props : list (string * jsval))
  : list (string * jsval) :=
  match props with
  | [] => [(k, v)]
  | (k', v') :: ps =>
      if String.eqb k' k then (k', v) :: ps else (k', v') :: setProp k v ps
  end.

Definition literal (word : string) (v : jsval) (s : string) : option (jsval * string) :=
  match stripPrefix word s with
  | Some rest => Some (v, rest)
  | None => None
  end.

(** Recursive descent.  [fuel] bounds the depth of the calls; [JSON_parse]
    supplies two units per input character and two more, beyond which more
    fuel never changes the answer ([parseValue_enough_fuel] below). *)
Fixpoint parseValue (fuel : nat) (s : string) : option (jsval * string) :=
  match fuel with
  | O => None
  | S fuel' =>
      match skipWs s with
      | EmptyString => None
      | String c r =>
          if Ascii.eqb c dquote then
            match parseStringBody r with
            | Some (str, rest) => Some (JStr str, rest)
            | None => None
            end
          else if Ascii.eqb c "["%char then
            match skipWs r with
            | String c' r' =>
                if Ascii.eqb c' "]"%char then Some (JArr [], r')
                else parseElements fuel' r []
            | EmptyString => None
            end
          else if Ascii.eqb c "{"%char then
            match skipWs r with
            | String c' r' =>
                if Ascii.eqb c' "}"%char then Some (JObj [], r')
                else parseMembers fuel' r []
            | EmptyString => None
            end
          else if Ascii.eqb c "n"%char then literal "null" JNull (String c r)
          else if Ascii.eqb c "t"%char then literal "true" (JBool true) (String c r)
          else if Ascii.eqb c "f"%char then literal "false" (JBool false) (String c r)
          else
            let (lit, rest) := spanNumber (String c r) in
            if validNumber lit then Some (JNum lit, rest) else None
      end
  end
with parseElements (fuel : nat) (s : string) (acc : list jsval)
  : option (jsval * string) :=
  match fuel with
  | O => None
  | S fuel' =>
      match parseValue fuel' s with
      | Some (v, r) =>
          match skipWs r with
          | String c r' =>
              if Ascii.eqb c ","%char then parseElements fuel' r' (acc ++ [v])
              else if Ascii.eqb c "]"%char then Some (JArr (acc ++ [v]), r')
              else None
          | EmptyString => None
          end
      | None => None
      end
  end
with parseMembers (fuel : nat) (s : string) (acc : list (string * jsval))
  : option (jsval * string) :=
  match fuel with
  | O => None
  | S fuel' =>
      match skipWs s with
      | String q r =>
          if Ascii.eqb q dquote then
            match parseStringBody r with
            | Some (k, r1) =>
                match skipWs r1 with
                | String colon r2 =>
                    if Ascii.eqb colon ":"%char then
                      match parseValue fuel' r2 with
                      | Some (v, r3) =>
                          match skipWs r3 with
                          | String c r' =>
                              if Ascii.eqb c ","%char
                              then parseMembers fuel' r' (setProp k v acc)
                              else if Ascii.eqb c "}"%char
                              then Some (JObj (setProp k v acc), r')
                              else None
                          | EmptyString => None
                          end
                      | None => None
                      end
                    else None
                | EmptyString => None
                end
            | None => None
            end
          else None
      | EmptyString => None
      end
  end.

(** [JSON.parse(text)]; [None] stands for the [SyntaxError] it throws. *)
Definition JSON_parse (text : string) : option jsval :=
  match parseValue (2 * String.length text + 2) text with
  | Some (v, rest) => if falsy (skipWs rest) then Some v else None
  | None => None
  end.

(** *** Reading values *)

(** [Array.isArray(v) && v.length > 0] and its parts. *)
Definition isArray (v : jsval) : bool :=
  match v with
  | JArr _ => true
  | _ => false
  end.

(** [v[k]] for a key that no built-in prototype defines: [None] is
    [undefined].  Reading a property of [null] throws; that case is
    handled by the callers. *)
Fixpoint lookup (k : string) (props : list (string * jsval)) : option jsval :=
  match props with
  | [] => None
  | (k', v) :: ps => if String.eqb k' k then Some v else lookup k ps
  end.

Definition getProp (v : jsval) (k : string) : option jsval :=
  match v with
  | JObj props => lookup k props
  | _ => None
  end.

(** [String(v)] and the conversion inside a template literal; [None] is
    [undefined]. *)
Fixpoint toStr (v : jsval) : string :=
  match v with
  | JNull => "null"
  | JBool true => "true"
  | JBool false => "false"
  | JNum literal => literal
  | JStr s => s
  | JArr items =>
      join "," (map (fun x => match x with JNull => EmptyString | _ => toStr x end) items)
  | JObj _ => "[object Object]"
  end.

Definition toStrU (v : option jsval) : string :=
  match v with
  | Some x => toStr x
  | None => "undefined"
  end.

End Json.

(** ** The application: deck, ingestion, persistence, export *)

Module App.
Import JsString Codec Json.

(** Decimal text of a non-negative integer inside a template literal. *)
Definition showN (n : N) : string := NilEmpty.string_of_uint (N.to_uint n).

(** The two object literals of [handleFiles] and [loadFromUrl]. *)
Definition separator (title id : string) : jsval :=
  JObj [("type", JStr "separator"); ("title", JStr title); ("id", JStr id)].

Definition card (q a id : string) : jsval :=
  JObj [("type", JStr "card"); ("question", JStr q); ("answer", JStr a);
        ("id", JStr id)].

(** The two shapes of a well-formed entry, and the object each one is. *)
Inductive Entry : Type :=
| Separator (title id : string)
| Card (prompt response id : string).

Definition entryJs (e : Entry) : jsval :=
  match e with
  | Separator title id => separator title id
  | Card prompt response id => card prompt response id
  end.

(** The text between the brackets of the snapshot of a deck. *)
Definition deckText (entries : list Entry) : string :=
  join "," (map JSON_stringify (map entryJs entries)).

(** [c.type === t] *)
Definition typeIs (c : jsval) (t : string) : bool :=
  match getProp c "type" with
  | Some (JStr s) => String.eqb s t
  | _ => false
  end.

(** What one run of the updater reads from the environment: [Date.now()]
    for the separator, the text of [Math.random()], and [Date.now()] as
    read while the card of index [idx] is built. *)
Record Clock : Type := mkClock {
  sepNow : N;
  random : string;
  cardNow : nat -> N
}.

Definition sepId (k : Clock) : string :=
  "sep-" ++ showN (sepNow k) ++ "-" ++ random k.

Definition cardId (name : string) (idx : nat) (k : Clock) : string :=
  name ++ "-" ++ showN (N.of_nat idx) ++ "-" ++ showN (cardNow k idx).

(** [parsed.map((p, idx) => ...)] from index [idx] on. *)
Fixpoint cardsFrom (name : string) (k : Clock) (idx : nat) (parsed : list QA)
  : list jsval :=
  match parsed with
  | [] => []
  | p :: rest =>
      card (question p) (answer p) (cardId name idx k)
      :: cardsFrom name k (S idx) rest
  end.

(** The entries one load adds: the separator, then the cards. *)
Definition block (name : string) (parsed : list QA) (k : Clock) : list jsval :=
  separator name (sepId k) :: cardsFrom name k 0 parsed.

(** The updater [prev => [...prev, separator, ...cards]]. *)
Definition appendBlock (name : string) (parsed : list QA) (k : Clock)
  (prev : list jsval) : list jsval :=
  prev ++ block name parsed k.

(** [localStorage]: the stored items by key; [getItem] gives [None] (the
    [null] of the source) for a key that holds nothing. *)
Definition Storage : Type := string -> option string.

Definition emptyStorage : Storage := fun _ => None.

Definition getItem (key : string) (items : Storage) : option string := items key.

Definition setItem (key value : string) (items : Storage) : Storage :=
  fun k => if String.eqb k key then Some value else items k.

Definition removeItem (key : string) (items : Storage) : Storage :=
  fun k => if String.eqb k key then None else items k.

Definition STORAGE_KEY : string := "flashcards-app-data".

(** The component's state together with the part of the browser it
    touches: [localStorage], the messages sent to [console.error] and those
    shown by [alert]. *)
Record State : Type := mkState {
  cards : list jsval;
  flipped : list string;
  storage : Storage;
  errors : list string;
  alerts : list string
}.

Definition withCards (d : list jsval) (st : State) : State :=
  mkState d (flipped st) (storage st) (errors st) (alerts st).
Definition withFlipped (f : list string) (st : State) : State :=
  mkState (cards st) f (storage st) (errors st) (alerts st).
Definition withStorage (s : Storage) (st : State) : State :=
  mkState (cards st) (flipped st) s (errors st) (alerts st).
Definition consoleError (msg : string) (st : State) : State :=
  mkState (cards st) (flipped st) (storage st) (errors st ++ [msg]) (alerts st).
Definition alert (msg : string) (st : State) : State :=
  mkState (cards st) (flipped st) (storage st) (errors st) (alerts st ++ [msg]).

(** The effect on [[cards]]: write the snapshot when the deck is not
    empty, remove it otherwise.  [writeOk] tells whether [setItem]
    succeeds (it throws when the quota is exceeded). *)
Definition saveEffect (writeOk : bool) (st : State) : State :=
  if Nat.ltb 0 (List.length (cards st)) then
    if writeOk
    then withStorage
           (setItem STORAGE_KEY (JSON_stringify (JArr (cards st))) (storage st)) st
    else consoleError "Error guardando datos:" st
  else withStorage (removeItem STORAGE_KEY (storage st)) st.

(** [setCards(update)]: the updater runs on the latest deck, the component
    renders again and the effect on [[cards]] runs. *)
Definition setCards (writeOk : bool) (update : list jsval -> list jsval)
  (st : State) : State :=
  saveEffect writeOk (withCards (update (cards st)) st).

(** The effect run once on mount; it returns the deck it passes to
    [setCards], if any. *)
Definition loadEffect (st : State) : State * option (list jsval) :=
  match getItem STORAGE_KEY (storage st) with
  | None => (st, None)
  | Some saved =>
      if falsy saved then (st, None)
      else
        match JSON_parse saved with
        | None => (consoleError "Error cargando datos guardados:" st, None)
        | Some parsed =>
            match parsed with
            | JArr items =>
                if Nat.ltb 0 (List.length items) then (st, Some items) else (st, None)
            | _ => (st, None)
            end
        end
  end.

Definition initialState (stored : Storage) : State :=
  mkState [] [] stored [] [].

(** Start of a process: the first render has the empty deck; both effects
    run in the order they are declared; the deck handed to [setCards] by
    the first one is installed by the following render.  That render is
    taken to succeed: a stored entry whose title, question or answer is an
    object makes [FlashcardViewer] throw, which is left out here; the
    decks the app writes hold strings only. *)
Definition mount (writeOk : bool) (stored : Storage) : State :=
  let (st1, pending) := loadEffect (initialState stored) in
  let st2 := saveEffect writeOk st1 in
  match pending with
  | Some parsed => setCards writeOk (fun _ => parsed) st2
  | None => st2
  end.

(** A selected file: its name and the text [readAsText] delivers. *)
Record File : Type := mkFile { name : string; content : string }.

(** [reader.onload] for [file]. *)
Definition onload (writeOk : bool) (file : File) (k : Clock) (st : State)
  : State :=
  let parsed := parseCSV (content file) in
  setCards writeOk (appendBlock (name file) parsed k) st.

(** One completed read: which file, what the updater read from the
    environment, and whether the snapshot write went through. *)
Record Completion : Type := mkCompletion {
  file : File;
  clock : Clock;
  written : bool
}.

Definition complete (ev : Completion) (st : State) : State :=
  onload (written ev) (file ev) (clock ev) st.

(** [handleFiles(fileList)] starts one reader for each file, next to the
    readers [pending] that are already in flight. *)
Definition handleFiles (fileList : list File) (pending : list File) : list File :=
  (pending ++ fileList)%list.

(** The readers finish in any order.  [drains pending st evs st'] : starting with the readers of
    [pending] in flight and the state [st], the completions [evs] happen
    in that order, leave no reader in flight and end in [st']. *)
Inductive drains : list File -> State -> list Completion -> State -> Prop :=
| drains_done : forall st, drains [] st [] st
| drains_fire : forall before after ev st evs st',
    drains (before ++ after) (complete ev st) evs st' ->
    drains (before ++ file ev :: after) st (ev :: evs) st'.

(** The entries the completion [ev] appends, and the number of pairs the
    content of a file parses to. *)
Definition blockOf (ev : Completion) : list jsval :=
  block (name (file ev)) (parseCSV (content (file ev))) (clock ev).

Definition pairsIn (f : File) : nat := List.length (parseCSV (content f)).

(** What the viewer shows of an entry: its question and answer. *)
Definition faces (c : jsval) : option jsval * option jsval :=
  (getProp c "question", getProp c "answer").

(** The deck after the completions [evs], by running the handlers. *)
Definition runCompletions (evs : list Completion) (st : State) : State :=
  fold_left (fun s ev => complete ev s) evs st.

(** What [fetch] and [res.text()] can do: [fetch] rejects (transport
    error) or resolves with a response whose [ok] flag tells a success
    status; reading the body gives the text or rejects. *)
Inductive TextOutcome : Type :=
| TextOk (text : string)
| TextFails (message : string).

Inductive FetchOutcome : Type :=
| FetchRejects (message : string)
| FetchResolves (ok : bool) (body : TextOutcome).

Definition fetchFailed (net : FetchOutcome) : bool :=
  match net with
  | FetchRejects _ => true
  | FetchResolves ok (TextOk _) => negb ok
  | FetchResolves _ (TextFails _) => true
  end.

(** [url.split('/').pop()] *)
Fixpoint splitSlash (s : string) : list string :=
  match s with
  | EmptyString => [EmptyString]
  | String c rest =>
      if Ascii.eqb c "/"%char then EmptyString :: splitSlash rest
      else
        match splitSlash rest with
        | piece :: pieces => String c piece :: pieces
        | [] => [String c EmptyString]
        end
  end.

Definition orElse (a b : string) : string := if falsy a then b else a.

Definition urlName (url : string) : string :=
  orElse (last (splitSlash url) EmptyString) url.

(** Following the spec's words, for comparison with [urlName]: the final
    path segment of the URL, or the whole URL if there is none.  The path
    of a URL is what follows the scheme and the authority and comes before
    the query and the fragment. *)
Fixpoint beforeQuery (s : string) : string :=
  match s with
  | EmptyString => EmptyString
  | String c rest =>
      if Ascii.eqb c "?"%char || Ascii.eqb c "#"%char then EmptyString
      else String c (beforeQuery rest)
  end.

Fixpoint afterScheme (s : string) : option string :=
  match s with
  | EmptyString => None
  | String c1 rest =>
      match rest with
      | String c2 (String c3 rest3) =>
          if Ascii.eqb c1 ":"%char && Ascii.eqb c2 "/"%char && Ascii.eqb c3 "/"%char
          then Some rest3
          else afterScheme rest
      | _ => None
      end
  end.

Fixpoint fromFirstSlash (s : string) : string :=
  match s with
  | EmptyString => EmptyString
  | String c rest => if Ascii.eqb c "/"%char then s else fromFirstSlash rest
  end.

Definition urlPath (url : string) : string :=
  let reference := beforeQuery url in
  match afterScheme reference with
  | Some hostAndPath => fromFirstSlash hostAndPath
  | None => reference
  end.

Definition specFinalPathSegment (url : string) : string :=
  orElse (last (splitSlash (urlPath url)) EmptyString) url.

Definition loadFromUrl (writeOk : bool) (url : string) (net : FetchOutcome)
  (k : Clock) (st : State) : State :=
  match net with
  | FetchRejects message => alert ("Error cargando desde URL: " ++ message) st
  | FetchResolves ok body =>
      if negb ok
      then alert ("Error cargando desde URL: " ++ "No se pudo obtener el archivo") st
      else
        match body with
        | TextFails message => alert ("Error cargando desde URL: " ++ message) st
        | TextOk text =>
            let parsed := parseCSV text in
            let name := urlName url in
            setCards writeOk (appendBlock name parsed k) st
        end
  end.

Definition toggleFlip (id : string) (st : State) : State :=
  if existsb (String.eqb id) (flipped st)
  then withFlipped (filter (fun x => negb (String.eqb id x)) (flipped st)) st
  else withFlipped (flipped st ++ [id]) st.

(** [clearAll]; [confirmed] is the answer of [confirm]. *)
Definition clearAll (writeOk : bool) (confirmed : bool) (st : State) : State :=
  if negb confirmed then st
  else
    saveEffect writeOk
      (withStorage (removeItem STORAGE_KEY (storage st))
         (withFlipped [] (withCards [] st))).

(** [exportAllAsCSV] up to the text handed to the [Blob].  Reading
    [c.type] of [null] throws a [TypeError]: [None]. *)
Definition rowsOfEntry (c : jsval) : option (list (list (option jsval))) :=
  match c with
  | JNull => None
  | _ =>
      if typeIs c "separator"
      then Some [[Some (JStr ("#" ++ toStrU (getProp c "title")))]]
      else if typeIs c "card"
      then Some [[getProp c "question"; getProp c "answer"]]
      else Some []
  end.

Fixpoint collectRows (deck : list jsval) : option (list (list (option jsval))) :=
  match deck with
  | [] => Some []
  | c :: rest =>
      match rowsOfEntry c, collectRows rest with
      | Some rows, Some more => Some (rows ++ more)%list
      | _, _ => None
      end
  end.

Definition printField (field : option jsval) : string :=
  match field with
  | None => EmptyString
  | Some JNull => EmptyString
  | Some v => csvField (toStr v)
  end.

Definition csvOfRows (rows : list (list (option jsval))) : string :=
  join (String LF EmptyString) (map (fun r => join "," (map printField r)) rows).

Definition exportAllAsCSV (deck : list jsval) : option string :=
  match collectRows deck with
  | Some rows => Some (csvOfRows rows)
  | None => None
  end.

(** The user-visible operations, for stating what is reachable. *)
Inductive Action : Type :=
| FileLoaded (ev : Completion)
| UrlLoaded (writeOk : bool) (url : string) (net : FetchOutcome) (k : Clock)
| Cleared (writeOk : bool) (confirmed : bool)
| Flipped (id : string).

Definition act (st : State) (a : Action) : State :=
  match a with
  | FileLoaded ev => complete ev st
  | UrlLoaded w url net k => loadFromUrl w url net k st
  | Cleared w confirmed => clearAll w confirmed st
  | Flipped id => toggleFlip id st
  end.

Definition run (stored : Storage) (actions : list Action) : State :=
  fold_left act actions (mount true stored).

(** The [id] of every entry. *)
Definition ids (deck : list jsval) : list (option jsval) :=
  map (fun c => getProp c "id") deck.

Definition countType (t : string) (deck : list jsval) : nat :=
  List.length (filter (fun c => typeIs c t) deck).

End App.

(** ** Facts about whole runs *)

Module Runs.
Import JsString Codec Json App.

(** Whether the snapshot write of an action goes through. *)
Definition writesOk (a : Action) : bool :=
  match a with
  | FileLoaded ev => written ev
  | UrlLoaded w _ _ _ => w
  | Cleared w _ => w
  | Flipped _ => true
  end.

(** A [clearAll] that the user confirmed. *)
Definition isConfirmedClear (a : Action) : bool :=
  match a with
  | Cleared _ confirmed => confirmed
  | _ => false
  end.

(** What the effect on [[cards]] leaves under [STORAGE_KEY] for a deck when
    the write goes through. *)
Definition snapshotOf (deck : list jsval) : option string :=
  match deck with
  | [] => None
  | _ :: _ => Some (JSON_stringify (JArr deck))
  end.

Definition synced (st : State) : Prop :=
  getItem STORAGE_KEY (storage st) = snapshotOf (cards st).

(** A process from its start: [mount], then the actions. *)
Definition session (writeOk : bool) (stored : Storage) (actions : list Action)
  : State :=
  fold_left act actions (mount writeOk stored).

End Runs.

(** ** The card viewer

    [FlashcardViewer]: its state and handlers.  [index] is an integer (it
    starts at 0 and only changes by the two updaters below); the touch
    coordinates are [clientX] values, taken here as whole pixels. *)

Module Viewer.
Import Json.

Record View : Type := mkView {
  index : Z;
  flip : bool;
  touchStart : option Z;
  touchEnd : option Z
}.

(** [useState(0)], [useState(false)], [useState(null)], [useState(null)] *)
Definition initialView : View := mkView 0 false None None.

Definition deckLength (deck : list jsval) : Z := Z.of_nat (List.length deck).

(** [cards[index]]; [None] is [undefined]. *)
Definition current (deck : list jsval) (v : View) : option jsval :=
  if (index v <? 0)%Z then None else nth_error deck (Z.to_nat (index v)).

(** [next] and [prev]: [setFlip(false)] and the clamped index updater. *)
Definition next (deck : list jsval) (v : View) : View :=
  mkView (Z.min (index v + 1) (deckLength deck - 1)) false
         (touchStart v) (touchEnd v).

Definition prev (deck : list jsval) (v : View) : View :=
  mkView (Z.max (index v - 1) 0) false (touchStart v) (touchEnd v).

(** The click on the card: [setFlip(f => !f)]. *)
Definition flipCard (v : View) : View :=
  mkView (index v) (negb (flip v)) (touchStart v) (touchEnd v).

(** The [disabled] attributes of the two buttons. *)
Definition prevDisabled (v : View) : bool := (index v =? 0)%Z.

Definition nextDisabled (deck : list jsval) (v : View) : bool :=
  (index v =? deckLength deck - 1)%Z.

Definition onTouchStart (clientX : Z) (v : View) : View :=
  mkView (index v) (flip v) (Some clientX) None.

Definition onTouchMove (clientX : Z) (v : View) : View :=
  mkView (index v) (flip v) (touchStart v) (Some clientX).

Definition minSwipeDistance : Z := 50.

(** [onTouchEnd]: [!touchStart || !touchEnd] holds for [null] and for the
    coordinate 0.  Both tests read the [index] of the current render; the
    two updaters run in the order they are queued. *)
Definition onTouchEnd (deck : list jsval) (v : View) : View :=
  match touchStart v, touchEnd v with
  | Some s, Some e =>
      if (s =? 0)%Z || (e =? 0)%Z then v
      else
        let distance := (s - e)%Z in
        let isLeftSwipe := (distance >? minSwipeDistance)%Z in
        let isRightSwipe := (distance <? - minSwipeDistance)%Z in
        let v1 :=
          if isLeftSwipe && (index v <? deckLength deck - 1)%Z
          then next deck v else v in
        if isRightSwipe && (index v >? 0)%Z then prev deck v1 else v1
  | _, _ => v
  end.

(** The index points at an entry of the deck. *)
Definition inDeck (deck : list jsval) (v : View) : Prop :=
  (0 <= index v < deckLength deck)%Z.

End Viewer.

(** ** Notions used to state facts about the codec *)

Module Text.
Import JsString Codec.

(** Number of occurrences of a character. *)
Fixpoint countChar (c : ascii) (s : string) : nat :=
  match s with
  | EmptyString => 0
  | String ch rest => (if Ascii.eqb ch c then 1 else 0) + countChar c rest
  end.

(** The string without its last character when that is a carriage return. *)
Fixpoint chompCR (s : string) : string :=
  match s with
  | EmptyString => EmptyString
  | String c rest =>
      match rest with
      | EmptyString => if Ascii.eqb c CR then EmptyString else s
      | String _ _ => String c (chompCR rest)
      end
  end.

(** [f] applied to the last element of a list. *)
Fixpoint mapLast {A : Type} (f : A -> A) (l : list A) : list A :=
  match l with
  | [] => []
  | [x] => [f x]
  | x :: rest => x :: mapLast f rest
  end.

(** No white space at the start. *)
Definition startsClean (s : string) : Prop :=
  match s with
  | EmptyString => True
  | String c _ => isWhiteSpace c = false
  end.

(** A field as [parseCSV] delivers them: trimmed and on one line. *)
Definition tidy (s : string) : Prop :=
  trim s = s /\ includes s LF = false.

End Text.

(** ** Notions used to state what an exported deck reads back as *)

Module Reimport.
Import JsString Codec Json App Text.

(** The line [exportAllAsCSV] prints for a well-formed entry. *)
Definition lineOf (e : Entry) : string :=
  match e with
  | Separator title _ => csvField ("#" ++ title)
  | Card prompt response _ => join "," [csvField prompt; csvField response]
  end.

(** The pair [parseCSV] makes of that line. *)
Definition readBack (e : Entry) : QA :=
  match e with
  | Separator title _ => mkQA ("#" ++ title) EmptyString
  | Card prompt response _ => mkQA prompt response
  end.

(** Entries whose printed line stands on its own: fields trimmed and free
    of line feeds, and a card with something on one side at least. *)
Definition exportable (e : Entry) : Prop :=
  match e with
  | Separator title _ => tidy ("#" ++ title)
  | Card prompt response _ =>
      tidy prompt /\ tidy response /\ (prompt <> "" \/ response <> "")
  end.

(** The cards of a block as entries. *)
Fixpoint cardEntries (name : string) (k : Clock) (idx : nat) (parsed : list QA)
  : list Entry :=
  match parsed with
  | [] => []
  | p :: rest =>
      Card (question p) (answer p) (cardId name idx k)
      :: cardEntries name k (S idx) rest
  end.

End Reimport.

(** ** The shape of a deck made by loads *)

Module Shape.
Import JsString Codec Json App.

Definition cardHasContent (e : Entry) : Prop :=
  match e with
  | Card prompt response _ => prompt <> "" \/ response <> ""
  | Separator _ _ => True
  end.

Definition startsWithSeparator (entries : list Entry) : Prop :=
  match entries with
  | Card _ _ _ :: _ => False
  | _ => True
  end.

(** Every element is a separator or a card with its string fields, no card
    is empty on both sides, and a card is never the first entry. *)
Definition wellFormedDeck (deck : list jsval) : Prop :=
  exists entries,
    deck = map entryJs entries
    /\ Forall cardHasContent entries
    /\ startsWithSeparator entries.

End Shape.

Import JsString Codec Json App.

(** ** Checks of the definitions on concrete inputs *)

Example split_plain : splitCSVLine "A,B" = ["A"; "B"].
Proof. reflexivity. Qed.

Example split_quoted :
  splitCSVLine (String dquote ("C, D" ++ String dquote ("," ++ String dquote ("E" ++ String dquote (String dquote ("F" ++ String dquote ""))))))
  = ["C, D"; "E" ++ String dquote "F"].
Proof. reflexivity. Qed.

Example parse_spec_example :
  parseCSV ("A,B" ++ String LF (String dquote ("C, D" ++ String dquote ("," ++ String dquote ("E" ++ String dquote (String dquote ("F" ++ String dquote "")))))))
  = [mkQA "A" "B"; mkQA "C, D" ("E" ++ String dquote "F")].
Proof. reflexivity. Qed.

(** * Properties *)

(** ** Strings *)

Lemma append_nil_r (s : string) : s ++ "" = s.
Proof. induction s as [|c s IH]; simpl; [reflexivity | now rewrite IH]. Qed.

Lemma append_assoc (a b c : string) : (a ++ b) ++ c = a ++ (b ++ c).
Proof. induction a as [|x a IH]; simpl; [reflexivity | now rewrite IH]. Qed.

Lemma push_char_append (cur : string) (ch : ascii) (s : string) :
  push_char cur ch ++ s = cur ++ String ch s.
Proof. unfold push_char. now rewrite append_assoc. Qed.

Lemma includes_cons_false (c : ascii) (s : string) (x : ascii) :
  includes (String c s) x = false -> Ascii.eqb c x = false /\ includes s x = false.
Proof. simpl. apply orb_false_elim. Qed.

(** Induction on strings two characters at a time, as the scanner reads
    them. *)
Lemma string_pair_ind (P : string -> Prop) :
  P "" ->
  (forall c, P (String c "")) ->
  (forall c c' s, P s -> P (String c' s) -> P (String c (String c' s))) ->
  forall s, P s.
Proof.
  intros H0 H1 H2 s.
  enough (P s /\ forall c, P (String c s)) by tauto.
  induction s as [|c' s [IHs IHc]]; split; auto.
Qed.

(** ** The tokenizer *)

Section Scan.

(** Outside quotes, characters other than the comma and the double quote
    accumulate into the current field. *)
Lemma scan_plain (s rest : string) (res : list string) (cur : string) :
  includes s comma = false -> includes s dquote = false ->
  scan (s ++ rest) res cur false = scan rest res (cur ++ s) false.
Proof.
  revert cur.
  induction s as [|c s IH]; intros cur Hc Hq.
  - now rewrite append_nil_r.
  - apply includes_cons_false in Hc as [Hc Hc'].
    apply includes_cons_false in Hq as [Hq Hq'].
    cbn [append scan]. rewrite Hq, Hc. cbn [andb].
    rewrite IH by assumption. now rewrite push_char_append.
Qed.

(** An opening quote only sets the flag. *)
Lemma scan_open (rest : string) (res : list string) (cur : string) :
  scan (String dquote rest) res cur false = scan rest res cur true.
Proof. destruct rest; reflexivity. Qed.

(** Inside quotes, the doubled text of [s] followed by a closing quote
    adds exactly [s] to the current field and leaves the quotes. *)
Lemma scan_quoted (s rest : string) (res : list string) (cur : string) :
  match rest with String ch _ => Ascii.eqb ch dquote = false | EmptyString => True end ->
  scan (doubleQuotes s ++ String dquote rest) res cur true
  = scan rest res (cur ++ s) false.
Proof.
  intros Hrest. revert cur.
  induction s as [|c s IH]; intros cur.
  - cbn [doubleQuotes append scan]. rewrite Ascii.eqb_refl.
    rewrite append_nil_r.
    destruct rest as [|ch rest']; [reflexivity|].
    rewrite Hrest. reflexivity.
  - cbn [doubleQuotes]. destruct (Ascii.eqb c dquote) eqn:Hc.
    + apply Ascii.eqb_eq in Hc. subst c.
      cbn [append scan]. rewrite Ascii.eqb_refl. cbn [andb].
      rewrite IH. now rewrite push_char_append.
    + cbn [append scan]. rewrite Hc.
      rewrite andb_false_r.
      rewrite IH. now rewrite push_char_append.
Qed.

(** A printed field followed by the end of the line or by a comma is read
    back as the field. *)
Lemma scan_csvField (f rest : string) (res : list string) :
  match rest with String ch _ => Ascii.eqb ch dquote = false | EmptyString => True end ->
  scan (csvField f ++ rest) res "" false = scan rest res f false.
Proof.
  intros Hrest. unfold csvField.
  destruct (needsQuoting f) eqn:Hn.
  - cbn [append]. rewrite scan_open, append_assoc. cbn [append].
    now rewrite scan_quoted.
  - unfold needsQuoting in Hn.
    apply orb_false_elim in Hn as [Hn _].
    apply orb_false_elim in Hn as [Hc Hq].
    now rewrite scan_plain.
Qed.

End Scan.

(** C3. Printing two fields with the exporter's quoting rule, joining them
    with a comma and tokenizing the line gives back the two fields, whatever
    characters they contain. *)
Theorem splitCSVLine_csvField_roundtrip (f1 f2 : string) :
  splitCSVLine (join "," [csvField f1; csvField f2]) = [f1; f2].
Proof.
  unfold splitCSVLine. cbn [join].
  rewrite scan_csvField by reflexivity.
  cbn [append scan]. cbn.
  replace (csvField f2) with (csvField f2 ++ "") by apply append_nil_r.
  rewrite scan_csvField by exact I.
  reflexivity.
Qed.

(** ** Quotes in the output of the tokenizer *)

Section Quotes.

Lemma countQuotes_push (cur : string) (ch : ascii) :
  countQuotes (push_char cur ch)
  = countQuotes cur + (if Ascii.eqb ch dquote then 1 else 0).
Proof.
  unfold push_char. induction cur as [|c cur IH]; cbn [append countQuotes].
  - lia.
  - rewrite IH. lia.
Qed.

Lemma totalQuotes_push (res : list string) (cur : string) :
  totalQuotes (res ++ [cur]) = totalQuotes res + countQuotes cur.
Proof.
  unfold totalQuotes. induction res as [|f res IH]; cbn [app fold_right].
  - lia.
  - rewrite IH. lia.
Qed.

Lemma scan_cons (ch : ascii) (rest : string) (res : list string)
  (cur : string) (inQuotes : bool) :
  scan (String ch rest) res cur inQuotes
  = if Ascii.eqb ch dquote then
      match rest with
      | String ch' rest' =>
          if inQuotes && Ascii.eqb ch' dquote
          then scan rest' res (push_char cur dquote) inQuotes
          else scan rest res cur (negb inQuotes)
      | EmptyString => scan rest res cur (negb inQuotes)
      end
    else if Ascii.eqb ch comma && negb inQuotes
    then scan rest (res ++ [cur]) EmptyString inQuotes
    else scan rest res (push_char cur ch) inQuotes.
Proof. reflexivity. Qed.

Lemma scan_quote_budget (line : string) :
  forall res cur inQuotes,
    2 * totalQuotes (fields (scan line res cur inQuotes))
    <= countQuotes line + 2 * (totalQuotes res + countQuotes cur).
Proof.
  induction line as [| c | c c' s IHs IHc] using string_pair_ind;
    intros res cur inQuotes.
  - cbn [scan fields countQuotes]. rewrite totalQuotes_push. lia.
  - cbn [scan countQuotes].
    destruct (Ascii.eqb c dquote) eqn:Hc.
    + cbn [fields]. rewrite totalQuotes_push. lia.
    + destruct (Ascii.eqb c comma && negb inQuotes); cbn [fields];
        rewrite !totalQuotes_push; try rewrite countQuotes_push, Hc;
        cbn [totalQuotes fold_right countQuotes]; lia.
  - rewrite scan_cons. cbv beta iota.
    change (countQuotes (String c (String c' s)))
      with ((if Ascii.eqb c dquote then 1 else 0) + countQuotes (String c' s)).
    destruct (Ascii.eqb c dquote) eqn:Hc.
    + destruct (inQuotes && Ascii.eqb c' dquote) eqn:Hesc.
      * apply andb_prop in Hesc as [_ Hc'].
        specialize (IHs res (push_char cur dquote) inQuotes).
        rewrite countQuotes_push, Ascii.eqb_refl in IHs.
        cbn [countQuotes]. rewrite Hc'. lia.
      * specialize (IHc res cur (negb inQuotes)). lia.
    + destruct (Ascii.eqb c comma && negb inQuotes).
      * specialize (IHc (res ++ [cur])%list "" inQuotes).
        rewrite totalQuotes_push in IHc.
        change (countQuotes "") with 0 in IHc. lia.
      * specialize (IHc res (push_char cur c) inQuotes).
        rewrite countQuotes_push, Hc in IHc. lia.
Qed.

Lemma scan_no_pair (line : string) :
  forall res cur inQuotes,
    hasQuotePair line = false ->
    totalQuotes (fields (scan line res cur inQuotes))
    = totalQuotes res + countQuotes cur.
Proof.
  induction line as [|c line IH]; intros res cur inQuotes Hp.
  - cbn [scan fields]. apply totalQuotes_push.
  - cbn [scan]. destruct (Ascii.eqb c dquote) eqn:Hc.
    + destruct line as [|c' line'].
      * cbn [scan fields]. apply totalQuotes_push.
      * cbn [hasQuotePair] in Hp. rewrite Hc in Hp.
        apply orb_false_elim in Hp as [Hc' Hp]. cbn [andb] in Hc'.
        rewrite Hc', andb_false_r. now apply IH.
    + assert (Hp' : hasQuotePair line = false).
      { destruct line as [|c' line']; [reflexivity|].
        cbn [hasQuotePair] in Hp. now apply orb_false_elim in Hp as [_ Hp]. }
      destruct (Ascii.eqb c comma && negb inQuotes).
      * rewrite IH by assumption. rewrite totalQuotes_push.
        cbn [countQuotes]. lia.
      * rewrite IH by assumption. rewrite countQuotes_push, Hc. lia.
Qed.

Lemma scan_inside (s : string) :
  forall res cur,
    includes s dquote = false -> scan s res cur true = (res, cur ++ s, true).
Proof.
  induction s as [|c s IH]; intros res cur Hq.
  - cbn [scan]. now rewrite append_nil_r.
  - apply includes_cons_false in Hq as [Hc Hq].
    cbn [scan]. rewrite Hc, andb_false_r.
    rewrite IH by assumption. now rewrite push_char_append.
Qed.

Lemma emit_append (cur : string) (ch : ascii) (fs : list string) :
  fs <> [] ->
  match emit ch fs with
  | f :: rest => (cur ++ f)%string :: rest
  | [] => [cur]
  end
  = match fs with
    | f :: rest => (push_char cur ch ++ f)%string :: rest
    | [] => [push_char cur ch]
    end.
Proof.
  destruct fs as [|f rest]; [contradiction|]. intros _.
  cbn [emit]. now rewrite push_char_append.
Qed.

Lemma tokenizeLine_nonempty (line : string) :
  forall inQuotes, tokenizeLine line inQuotes <> [].
Proof.
  induction line as [| c | c c' s IHs IHc] using string_pair_ind;
    intros inQuotes.
  - discriminate.
  - cbn [tokenizeLine]. destruct (Ascii.eqb c dquote); [discriminate|].
    destruct (Ascii.eqb c comma && negb inQuotes); discriminate.
  - change (tokenizeLine (String c (String c' s)) inQuotes) with
      (if Ascii.eqb c dquote then
         if inQuotes && Ascii.eqb c' dquote
         then emit dquote (tokenizeLine s inQuotes)
         else tokenizeLine (String c' s) (negb inQuotes)
       else if Ascii.eqb c comma && negb inQuotes
       then EmptyString :: tokenizeLine (String c' s) inQuotes
       else emit c (tokenizeLine (String c' s) inQuotes)).
    destruct (Ascii.eqb c dquote).
    + destruct (inQuotes && Ascii.eqb c' dquote); [|apply IHc].
      destruct (tokenizeLine s inQuotes); discriminate.
    + destruct (Ascii.eqb c comma && negb inQuotes); [discriminate|].
      destruct (tokenizeLine (String c' s) inQuotes); discriminate.
Qed.

(** The loop, with its accumulators, builds the fields of the design's
    tokenizer after the finished fields and the current one. *)
Lemma scan_tokenizeLine (line : string) :
  forall res cur inQuotes,
    fields (scan line res cur inQuotes)
    = (res ++ match tokenizeLine line inQuotes with
              | f :: rest => (cur ++ f)%string :: rest
              | [] => [cur]
              end)%list.
Proof.
  induction line as [| c | c c' s IHs IHc] using string_pair_ind;
    intros res cur inQuotes.
  - cbn [scan fields tokenizeLine]. now rewrite append_nil_r.
  - cbn [scan tokenizeLine]. destruct (Ascii.eqb c dquote).
    + cbn [fields]. now rewrite append_nil_r.
    + destruct (Ascii.eqb c comma && negb inQuotes); cbn [fields emit].
      * rewrite append_nil_r, <- app_assoc. reflexivity.
      * unfold push_char. reflexivity.
  - rewrite scan_cons. cbv beta iota.
    change (tokenizeLine (String c (String c' s)) inQuotes) with
      (if Ascii.eqb c dquote then
         if inQuotes && Ascii.eqb c' dquote
         then emit dquote (tokenizeLine s inQuotes)
         else tokenizeLine (String c' s) (negb inQuotes)
       else if Ascii.eqb c comma && negb inQuotes
       then EmptyString :: tokenizeLine (String c' s) inQuotes
       else emit c (tokenizeLine (String c' s) inQuotes)).
    destruct (Ascii.eqb c dquote).
    + destruct (inQuotes && Ascii.eqb c' dquote).
      * rewrite IHs, emit_append by apply tokenizeLine_nonempty. reflexivity.
      * apply IHc.
    + destruct (Ascii.eqb c comma && negb inQuotes).
      * rewrite IHc, append_nil_r, <- app_assoc. cbn [app append].
        pose proof (tokenizeLine_nonempty (String c' s) inQuotes) as Hne.
        destruct (tokenizeLine (String c' s) inQuotes); [contradiction|].
        reflexivity.
      * rewrite IHc, emit_append by apply tokenizeLine_nonempty. reflexivity.
Qed.

(** Every quote of the output is a doubled quote met inside quotes. *)
Lemma scan_literalQuotes (line : string) :
  forall res cur inQuotes,
    totalQuotes (fields (scan line res cur inQuotes))
    = totalQuotes res + countQuotes cur + literalQuotes line inQuotes.
Proof.
  induction line as [| c | c c' s IHs IHc] using string_pair_ind;
    intros res cur inQuotes.
  - cbn [scan fields literalQuotes]. rewrite totalQuotes_push. lia.
  - cbn [scan literalQuotes]. destruct (Ascii.eqb c dquote) eqn:Hc.
    + cbn [fields]. rewrite totalQuotes_push. lia.
    + destruct (Ascii.eqb c comma && negb inQuotes); cbn [fields];
        rewrite !totalQuotes_push; try rewrite countQuotes_push, Hc;
        cbn [countQuotes]; lia.
  - rewrite scan_cons. cbv beta iota.
    change (literalQuotes (String c (String c' s)) inQuotes) with
      (if Ascii.eqb c dquote then
         if inQuotes && Ascii.eqb c' dquote
         then S (literalQuotes s inQuotes)
         else literalQuotes (String c' s) (negb inQuotes)
       else literalQuotes (String c' s) inQuotes).
    destruct (Ascii.eqb c dquote) eqn:Hc.
    + destruct (inQuotes && Ascii.eqb c' dquote).
      * rewrite IHs, countQuotes_push, Ascii.eqb_refl. lia.
      * apply IHc.
    + destruct (Ascii.eqb c comma && negb inQuotes).
      * rewrite IHc, totalQuotes_push. cbn [countQuotes]. lia.
      * rewrite IHc, countQuotes_push, Hc. lia.
Qed.

(** An empty quoted field, met outside quotes, leaves no trace. *)
Lemma scan_empty_quoted (tail : string) (res : list string) (cur : string) :
  match tail with String ch _ => Ascii.eqb ch dquote = false | EmptyString => True end ->
  scan (String dquote (String dquote tail)) res cur false = scan tail res cur false.
Proof.
  intros Htail. rewrite scan_open.
  destruct tail as [|ch tail']; [reflexivity|].
  cbn [scan]. rewrite Ascii.eqb_refl, Htail. reflexivity.
Qed.

End Quotes.

(** C9. The quotes that open and close quoting never reach the output.
    The tokenizer computes the fields of the design's description, in which
    a quote that toggles emits nothing; the quotes of the output are, in
    number, exactly the doubled quotes met inside quotes, so at most half
    the quotes of the line and none when the line has no two adjacent
    quotes; an empty quoted field met outside quotes leaves no trace; and a
    line that starts with its only quote gives one field, the rest of the
    line, commas included, the loop ending with its flag still set. *)
Theorem delimiter_quotes_dropped (line : string) :
  splitCSVLine line = tokenizeLine line false
  /\ totalQuotes (splitCSVLine line) = literalQuotes line false
  /\ 2 * totalQuotes (splitCSVLine line) <= countQuotes line
  /\ (hasQuotePair line = false -> totalQuotes (splitCSVLine line) = 0)
  /\ (forall tail, line = String dquote tail -> includes tail dquote = false ->
      splitCSVLine line = [tail] /\ endsInQuotes line = true)
  /\ (forall tail, line = String dquote (String dquote tail) ->
      match tail with
      | String ch _ => Ascii.eqb ch dquote = false
      | EmptyString => True
      end ->
      splitCSVLine line = splitCSVLine tail).
Proof.
  unfold splitCSVLine, endsInQuotes.
  split; [|split; [|split; [|split; [|split]]]].
  - rewrite scan_tokenizeLine. cbn [app].
    pose proof (tokenizeLine_nonempty line false) as Hne.
    destruct (tokenizeLine line false); [contradiction | reflexivity].
  - now rewrite scan_literalQuotes.
  - pose proof (scan_quote_budget line [] "" false) as H.
    cbn [totalQuotes fold_right countQuotes] in H. lia.
  - intros Hp. now rewrite scan_no_pair.
  - intros tail -> Hq. rewrite scan_open. now rewrite scan_inside.
  - intros tail -> Htail. now rewrite scan_empty_quoted.
Qed.

Lemma delimiter_quotes_dropped_witness :
  (splitCSVLine (String dquote "a,b, c") = ["a,b, c"]
   /\ endsInQuotes (String dquote "a,b, c") = true)
  /\ totalQuotes (splitCSVLine (String dquote "a,b, c")) = 0
  /\ splitCSVLine (String dquote (String dquote ",x")) = splitCSVLine ",x"
  /\ totalQuotes (splitCSVLine (String dquote (String dquote ",x"))) = 0.
Proof.
  pose proof (delimiter_quotes_dropped (String dquote "a,b, c"))
    as (_ & _ & _ & H0 & H1 & _).
  pose proof (delimiter_quotes_dropped (String dquote (String dquote ",x")))
    as (_ & Hexact & _ & _ & _ & Hempty).
  split; [|split; [|split]].
  - apply (H1 "a,b, c"); reflexivity.
  - apply H0. reflexivity.
  - apply (Hempty ",x"); reflexivity.
  - exact Hexact.
Defined.

(** ** The document parser *)

Section ParseRows.

Lemma falsy_false (s : string) : falsy s = false -> s <> "".
Proof. destruct s; [discriminate | discriminate]. Qed.

Lemma parseRow_blank (out : list QA) (line : string) :
  falsy line = true -> parseRow out line = out.
Proof. unfold parseRow. now intros ->. Qed.

Lemma parseRow_grows (out : list QA) (line : string) :
  parseRow out line = out
  \/ exists p, parseRow out line = (out ++ [p])%list /\ hasContent p
               /\ falsy line = false.
Proof.
  unfold parseRow. destruct (falsy line) eqn:Hl; [now left|].
  destruct (falsy (trim (col (splitCSVLine line) 0))) eqn:Hq;
    destruct (falsy (trim (col (splitCSVLine line) 1))) eqn:Ha;
    cbn [negb orb]; [now left| | |];
    right; eexists; (split; [reflexivity|]); (split; [|reflexivity]);
    unfold hasContent; cbn [question answer];
    auto using falsy_false.
Qed.

Lemma parseRows_content (rows : list string) :
  forall out, Forall hasContent out -> Forall hasContent (fold_left parseRow rows out).
Proof.
  induction rows as [|line rows IH]; intros out Hout; cbn [fold_left].
  - assumption.
  - apply IH.
    destruct (parseRow_grows out line) as [-> | (p & -> & Hp & _)].
    + assumption.
    + apply Forall_app. split; [assumption | now constructor].
Qed.

Lemma parseRows_skip_blank (rows : list string) :
  forall out,
    fold_left parseRow rows out = fold_left parseRow (filter nonBlank rows) out.
Proof.
  induction rows as [|line rows IH]; intros out; cbn [fold_left filter].
  - reflexivity.
  - unfold nonBlank at 1. destruct (falsy line) eqn:Hl; cbn [negb].
    + rewrite parseRow_blank by assumption. apply IH.
    + cbn [fold_left]. apply IH.
Qed.

Lemma parseRows_length (rows : list string) :
  forall out,
    List.length (fold_left parseRow rows out)
    <= List.length out + List.length (filter nonBlank rows).
Proof.
  induction rows as [|line rows IH]; intros out; cbn [fold_left filter].
  - lia.
  - specialize (IH (parseRow out line)).
    destruct (parseRow_grows out line) as [E | (p & E & _ & Hl)].
    + rewrite E in *. destruct (nonBlank line); cbn [List.length]; lia.
    + rewrite E in *. rewrite length_app in IH. cbn [List.length] in IH.
      unfold nonBlank at 1. rewrite Hl. cbn [negb List.length]. lia.
Qed.

End ParseRows.

(** C4. Every pair [parseCSV] produces has a non-empty question or a
    non-empty answer, and the lines that are empty after trimming add
    nothing: the result is the one obtained from the non-blank lines alone,
    at most one pair for each. *)
Theorem parseCSV_pairs_nonempty (text : string) :
  Forall hasContent (parseCSV text)
  /\ parseCSV text = fold_left parseRow (filter nonBlank (rowsOf text)) []
  /\ List.length (parseCSV text) <= List.length (filter nonBlank (rowsOf text)).
Proof.
  unfold parseCSV. repeat split.
  - apply parseRows_content. constructor.
  - apply parseRows_skip_blank.
  - apply (parseRows_length (rowsOf text) []).
Qed.

(** ** Export *)

(** C8. The deck made of the separator of [file1.csv] and the card [Q]/[A]
    is exported as the text [#file1.csv], a line feed, [Q,A]: one
    single-field row for the separator, one comma-joined row for the card,
    one line feed between the rows and none after the last. *)
Theorem export_separator_card (sepId cardId : string) :
  exportAllAsCSV [separator "file1.csv" sepId; card "Q" "A" cardId]
  = Some ("#file1.csv" ++ String LF "Q,A").
Proof. reflexivity. Qed.

(** ** Clearing *)

(** C5. [clearAll] does what the confirmation says: on yes the deck is
    empty and the stored snapshot is removed; on no the state, deck and
    snapshot included, is the one before the call. *)
Theorem clearAll_confirmation (writeOk : bool) (st : State) :
  (cards (clearAll writeOk true st) = []
   /\ getItem STORAGE_KEY (storage (clearAll writeOk true st)) = None)
  /\ clearAll writeOk false st = st.
Proof. repeat split. Qed.

(** ** Loading from a URL *)

Section UrlName.

Lemma splitSlash_nonempty (s : string) : splitSlash s <> [].
Proof.
  destruct s as [|c s]; cbn [splitSlash]; [discriminate|].
  destruct (Ascii.eqb c "/"); [discriminate|].
  destruct (splitSlash s); discriminate.
Qed.

Lemma last_cons_nonempty {A} (x : A) (l : list A) (d : A) :
  l <> [] -> last (x :: l) d = last l d.
Proof. destruct l; [contradiction | reflexivity]. Qed.

Lemma splitSlash_no_slash (s : string) :
  includes s "/" = false -> splitSlash s = [s].
Proof.
  induction s as [|c s IH]; intros H; [reflexivity|].
  apply includes_cons_false in H as [Hc Hs].
  cbn [splitSlash]. rewrite Hc, IH by assumption. reflexivity.
Qed.

Lemma last_app_nonempty {A} (l l' : list A) (d : A) :
  l' <> [] -> last (l ++ l') d = last l' d.
Proof.
  intros Hl'. induction l as [|x l IH]; [reflexivity|].
  cbn [app]. rewrite last_cons_nonempty; [exact IH|].
  destruct l; [exact Hl' | discriminate].
Qed.

Lemma splitSlash_app (pre seg : string) :
  splitSlash (pre ++ String "/" seg) = (splitSlash pre ++ splitSlash seg)%list.
Proof.
  induction pre as [|c pre IH]; cbn [append splitSlash].
  - now rewrite Ascii.eqb_refl.
  - destruct (Ascii.eqb c "/").
    + now rewrite IH.
    + rewrite IH. pose proof (splitSlash_nonempty pre) as Hne.
      destruct (splitSlash pre); [contradiction | reflexivity].
Qed.

Lemma last_splitSlash (pre seg : string) :
  includes seg "/" = false ->
  last (splitSlash (pre ++ String "/" seg)) "" = seg.
Proof.
  intros Hseg. rewrite splitSlash_app.
  rewrite last_app_nonempty by apply splitSlash_nonempty.
  now rewrite splitSlash_no_slash.
Qed.

Lemma cardsFrom_reads (name : string) (k : Clock) (parsed : list QA) :
  forall idx,
    Forall (fun c => typeIs c "card" = true) (cardsFrom name k idx parsed)
    /\ map faces (cardsFrom name k idx parsed)
       = map (fun p => (Some (JStr (question p)), Some (JStr (answer p)))) parsed
    /\ ids (cardsFrom name k idx parsed)
       = map (fun i => Some (JStr (cardId name i k)))
             (seq idx (List.length parsed)).
Proof.
  induction parsed as [|p parsed IH]; intros idx.
  - split; [constructor | split; reflexivity].
  - destruct (IH (S idx)) as (IHt & IHf & IHi).
    cbn [cardsFrom map List.length seq]. split; [|split].
    + constructor; [reflexivity | exact IHt].
    + now rewrite IHf.
    + unfold ids in *. cbn [map]. now rewrite IHi.
Qed.

End UrlName.

(** C6, as amended.  When the fetch fails (transport error, status that
    is not a success, or a body that cannot be read) [loadFromUrl] leaves
    the deck and [localStorage] as they were and reports through [alert].
    When it succeeds it appends one entry of type separator whose title is
    the text that follows the last slash of the URL string, query and
    fragment included, or the whole URL when that text is empty, and then
    one entry of type card for each parsed pair, showing the pairs in the
    order of parsing; nothing is alerted. *)
Theorem loadFromUrl_outcomes (writeOk : bool) (url : string)
  (net : FetchOutcome) (k : Clock) (st : State) :
  (fetchFailed net = true ->
     cards (loadFromUrl writeOk url net k st) = cards st
     /\ storage (loadFromUrl writeOk url net k st) = storage st
     /\ exists message,
          alerts (loadFromUrl writeOk url net k st)
          = (alerts st ++ [("Error cargando desde URL: " ++ message)%string])%list)
  /\ (forall text, net = FetchResolves true (TextOk text) ->
        exists sep added,
          cards (loadFromUrl writeOk url net k st)
          = (cards st ++ sep :: added)%list
          /\ typeIs sep "separator" = true
          /\ getProp sep "title" = Some (JStr (urlName url))
          /\ getProp sep "id" = Some (JStr (sepId k))
          /\ Forall (fun c => typeIs c "card" = true) added
          /\ map faces added
             = map (fun p => (Some (JStr (question p)), Some (JStr (answer p))))
                   (parseCSV text)
          /\ ids added
             = map (fun i => Some (JStr (cardId (urlName url) i k)))
                   (seq 0 (List.length (parseCSV text)))
          /\ alerts (loadFromUrl writeOk url net k st) = alerts st)
  /\ (forall pre seg, url = pre ++ String "/" seg -> includes seg "/" = false ->
        urlName url = if falsy seg then url else seg)
  /\ (includes url "/" = false -> urlName url = url).
Proof.
  split; [|split; [|split]].
  - intros Hf. destruct net as [message | ok [text | message]]; cbn in Hf.
    + repeat split. now exists message.
    + destruct ok; [discriminate|]. repeat split. eexists. reflexivity.
    + destruct ok; repeat split; eexists; reflexivity.
  - intros text ->.
    exists (separator (urlName url) (sepId k)),
           (cardsFrom (urlName url) k 0 (parseCSV text)).
    destruct (cardsFrom_reads (urlName url) k (parseCSV text) 0)
      as (Htypes & Hfaces & Hids).
    split; [|split; [reflexivity|split; [reflexivity|split; [reflexivity|
      split; [exact Htypes|split; [exact Hfaces|split; [exact Hids|]]]]]]].
    + cbn [loadFromUrl negb]. unfold setCards, saveEffect.
      cbn [cards withCards]. unfold appendBlock, block.
      destruct (Nat.ltb _ _); [destruct writeOk|]; reflexivity.
    + cbn [loadFromUrl negb]. unfold setCards, saveEffect.
      cbn [cards withCards].
      destruct (Nat.ltb _ _); [destruct writeOk|]; reflexivity.
  - intros pre seg -> Hseg. unfold urlName, orElse.
    now rewrite last_splitSlash.
  - intros Hu. unfold urlName, orElse.
    rewrite splitSlash_no_slash by assumption. cbn [last].
    now destruct url.
Qed.

Lemma loadFromUrl_outcomes_witness :
  cards (loadFromUrl true "http://example.org/decks/a.csv"
           (FetchResolves false (TextOk "Q,A"))
           (mkClock 1000 "0.5" (fun _ => 1000%N)) (initialState emptyStorage)) = []
  /\ urlName "http://example.org/decks/a.csv" = "a.csv"
  /\ urlName "a.csv" = "a.csv"
  /\ exists sep added,
       cards (loadFromUrl true "http://example.org/decks/a.csv"
                (FetchResolves true (TextOk "Q,A"))
                (mkClock 1000 "0.5" (fun _ => 1000%N)) (initialState emptyStorage))
       = sep :: added
       /\ getProp sep "title" = Some (JStr "a.csv")
       /\ map faces added = [(Some (JStr "Q"), Some (JStr "A"))]
       /\ ids added = [Some (JStr "a.csv-0-1000")].
Proof.
  split; [|split; [|split]].
  - apply (loadFromUrl_outcomes true "http://example.org/decks/a.csv"
             (FetchResolves false (TextOk "Q,A"))
             (mkClock 1000 "0.5" (fun _ => 1000%N)) (initialState emptyStorage)).
    reflexivity.
  - apply (loadFromUrl_outcomes true "http://example.org/decks/a.csv"
             (FetchResolves false (TextOk "Q,A"))
             (mkClock 1000 "0.5" (fun _ => 1000%N)) (initialState emptyStorage))
      with (pre := "http://example.org/decks") (seg := "a.csv"); reflexivity.
  - apply (loadFromUrl_outcomes true "a.csv"
             (FetchResolves false (TextOk "Q,A"))
             (mkClock 1000 "0.5" (fun _ => 1000%N)) (initialState emptyStorage)).
    reflexivity.
  - destruct (loadFromUrl_outcomes true "http://example.org/decks/a.csv"
                (FetchResolves true (TextOk "Q,A"))
                (mkClock 1000 "0.5" (fun _ => 1000%N)) (initialState emptyStorage))
      as (_ & Hok & _).
    destruct (Hok "Q,A" eq_refl)
      as (sep & added & Hcards & _ & Htitle & _ & _ & Hfaces & Hids & _).
    exists sep, added. repeat split; assumption.
Defined.

(** The title is not the final path segment of the URL in general: a query
    that holds a slash gives the text after that slash, where the final path
    segment is the file name; a URL without a path gives the host name,
    where there is no path segment and the whole URL would be the title. *)
Lemma loadFromUrl_title_counterexample :
  map (fun c => getProp c "title")
      (cards (loadFromUrl true "https://example.org/a.csv?v=1/2"
                (FetchResolves true (TextOk "Q,A"))
                (mkClock 1000 "0.5" (fun _ => 1000%N))
                (initialState emptyStorage)))
  = [Some (JStr "2"); None]
  /\ specFinalPathSegment "https://example.org/a.csv?v=1/2" = "a.csv"
  /\ urlName "https://example.org/a.csv?v=1/2"
     <> specFinalPathSegment "https://example.org/a.csv?v=1/2"
  /\ urlName "http://example.org" = "example.org"
  /\ specFinalPathSegment "http://example.org" = "http://example.org".
Proof. repeat split. discriminate. Qed.

(** ** Fuel of the JSON parser *)

Section Fuel.

Lemma parseValue_S (fuel : nat) (s : string) :
  parseValue (S fuel) s
  = match skipWs s with
    | EmptyString => None
    | String c r =>
        if Ascii.eqb c dquote then
          match parseStringBody r with
          | Some (str, rest) => Some (JStr str, rest)
          | None => None
          end
        else if Ascii.eqb c "["%char then
          match skipWs r with
          | String c' r' =>
              if Ascii.eqb c' "]"%char then Some (JArr [], r')
              else parseElements fuel r []
          | EmptyString => None
          end
        else if Ascii.eqb c "{"%char then
          match skipWs r with
          | String c' r' =>
              if Ascii.eqb c' "}"%char then Some (JObj [], r')
              else parseMembers fuel r []
          | EmptyString => None
          end
        else if Ascii.eqb c "n"%char then literal "null" JNull (String c r)
        else if Ascii.eqb c "t"%char then literal "true" (JBool true) (String c r)
        else if Ascii.eqb c "f"%char then literal "false" (JBool false) (String c r)
        else
          let (lit, rest) := spanNumber (String c r) in
          if validNumber lit then Some (JNum lit, rest) else None
    end.
Proof. reflexivity. Qed.

Lemma parseElements_S (fuel : nat) (s : string) (acc : list jsval) :
  parseElements (S fuel) s acc
  = match parseValue fuel s with
    | Some (v, r) =>
        match skipWs r with
        | String c r' =>
            if Ascii.eqb c ","%char then parseElements fuel r' (acc ++ [v])
            else if Ascii.eqb c "]"%char then Some (JArr (acc ++ [v]), r')
            else None
        | EmptyString => None
        end
    | None => None
    end.
Proof. reflexivity. Qed.

Lemma parseMembers_S (fuel : nat) (s : string) (acc : list (string * jsval)) :
  parseMembers (S fuel) s acc
  = match skipWs s with
    | String q r =>
        if Ascii.eqb q dquote then
          match parseStringBody r with
          | Some (k, r1) =>
              match skipWs r1 with
              | String colon r2 =>
                  if Ascii.eqb colon ":"%char then
                    match parseValue fuel r2 with
                    | Some (v, r3) =>
                        match skipWs r3 with
                        | String c r' =>
                            if Ascii.eqb c ","%char
                            then parseMembers fuel r' (setProp k v acc)
                            else if Ascii.eqb c "}"%char
                            then Some (JObj (setProp k v acc), r')
                            else None
                        | EmptyString => None
                        end
                    | None => None
                    end
                  else None
              | EmptyString => None
              end
          | None => None
          end
        else None
    | EmptyString => None
    end.
Proof. reflexivity. Qed.

Lemma skipWs_length (s : string) : String.length (skipWs s) <= String.length s.
Proof.
  induction s as [|c s IH]; cbn [skipWs String.length]; [lia|].
  destruct (isJsonWs c); cbn [String.length]; lia.
Qed.

Lemma skipWs_cons_length (s : string) (c : ascii) (r : string) :
  skipWs s = String c r -> S (String.length r) <= String.length s.
Proof.
  intros H. pose proof (skipWs_length s) as Hl. rewrite H in Hl. exact Hl.
Qed.

Lemma consChar_length (c : ascii) (o : option (string * string)) (str r : string) :
  consChar c o = Some (str, r) -> exists str', o = Some (str', r).
Proof.
  destruct o as [[str' r']|]; cbn [consChar]; [|discriminate].
  intros [= _ <-]. now exists str'.
Qed.

Lemma parseStringBody_length_aux (n : nat) :
  forall s str r,
    String.length s <= n ->
    parseStringBody s = Some (str, r) -> String.length r < String.length s.
Proof.
  induction n as [|n IH]; intros s str r Hn H.
  - destruct s; [discriminate | cbn in Hn; lia].
  - destruct s as [|c s]; [discriminate|].
    cbn [String.length] in Hn |- *. cbn [parseStringBody] in H.
    destruct (Ascii.eqb c dquote); [injection H as _ <-; lia|].
    destruct (Ascii.eqb c backslash).
    + destruct s as [|e s]; [discriminate|]. cbn [String.length] in Hn |- *.
      destruct (Ascii.eqb e "u").
      * destruct s as [|h1 [|h2 [|h3 [|h4 s]]]]; try discriminate.
        cbn [String.length] in Hn |- *.
        destruct (hex4 h1 h2 h3 h4) as [m|]; [|discriminate].
        destruct (Nat.ltb m 256); [|discriminate].
        apply consChar_length in H as [str' H].
        apply IH in H; lia.
      * destruct (unescape e); [|discriminate].
        apply consChar_length in H as [str' H].
        apply IH in H; lia.
    + destruct (Nat.ltb (nat_of_ascii c) 32); [discriminate|].
      apply consChar_length in H as [str' H].
      apply IH in H; lia.
Qed.

Lemma parseStringBody_length (s str r : string) :
  parseStringBody s = Some (str, r) -> String.length r < String.length s.
Proof. now apply (parseStringBody_length_aux (String.length s)). Qed.

Lemma spanNumber_length (s : string) :
  String.length (snd (spanNumber s)) <= String.length s.
Proof.
  induction s as [|c s IH]; cbn [spanNumber]; [cbn; lia|].
  destruct (isNumberChar c); [|cbn; lia].
  destruct (spanNumber s) as [lit rest]. cbn [snd String.length] in *. lia.
Qed.

Lemma stripPrefix_length (p : string) :
  forall s r, stripPrefix p s = Some r -> String.length r <= String.length s.
Proof.
  induction p as [|c p IH]; intros s r H; cbn [stripPrefix] in H.
  - injection H as <-. lia.
  - destruct s as [|c' s]; [discriminate|].
    destruct (Ascii.eqb c c'); [|discriminate].
    apply IH in H. cbn [String.length]. lia.
Qed.

Lemma literal_length (word : string) (v : jsval) (s : string) (v' : jsval) (r : string) :
  literal word v s = Some (v', r) -> String.length r <= String.length s.
Proof.
  unfold literal. destruct (stripPrefix word s) as [rest|] eqn:E; [|discriminate].
  intros [= _ <-]. now apply stripPrefix_length in E.
Qed.

(** The rest returned by a parser is never longer than its input. *)
Lemma parse_length (fuel : nat) :
  (forall s v r, parseValue fuel s = Some (v, r) ->
                 String.length r <= String.length s)
  /\ (forall s acc v r, parseElements fuel s acc = Some (v, r) ->
                        String.length r <= String.length s)
  /\ (forall s acc v r, parseMembers fuel s acc = Some (v, r) ->
                        String.length r <= String.length s).
Proof.
  induction fuel as [|fuel (IHv & IHe & IHm)].
  - repeat split; discriminate.
  - repeat split.
    + intros s v r H. rewrite parseValue_S in H.
      destruct (skipWs s) as [|c r0] eqn:Ews; [discriminate|].
      apply skipWs_cons_length in Ews.
      destruct (Ascii.eqb c dquote).
      { destruct (parseStringBody r0) as [[str rest]|] eqn:E; [|discriminate].
        apply parseStringBody_length in E. injection H as _ <-. lia. }
      destruct (Ascii.eqb c "[").
      { destruct (skipWs r0) as [|c' r'] eqn:E2; [discriminate|].
        apply skipWs_cons_length in E2.
        destruct (Ascii.eqb c' "]"); [injection H as _ <-; lia|].
        apply IHe in H. lia. }
      destruct (Ascii.eqb c "{").
      { destruct (skipWs r0) as [|c' r'] eqn:E2; [discriminate|].
        apply skipWs_cons_length in E2.
        destruct (Ascii.eqb c' "}"); [injection H as _ <-; lia|].
        apply IHm in H. lia. }
      destruct (Ascii.eqb c "n");
        [apply literal_length in H; cbn [String.length] in H; lia|].
      destruct (Ascii.eqb c "t");
        [apply literal_length in H; cbn [String.length] in H; lia|].
      destruct (Ascii.eqb c "f");
        [apply literal_length in H; cbn [String.length] in H; lia|].
      pose proof (spanNumber_length (String c r0)) as Hs.
      destruct (spanNumber (String c r0)) as [lit rest].
      destruct (validNumber lit); [|discriminate].
      injection H as _ <-. cbn [snd String.length] in Hs. lia.
    + intros s acc v r H. rewrite parseElements_S in H.
      destruct (parseValue fuel s) as [[v0 r0]|] eqn:Ev; [|discriminate].
      apply IHv in Ev.
      destruct (skipWs r0) as [|c r'] eqn:Ews; [discriminate|].
      apply skipWs_cons_length in Ews.
      destruct (Ascii.eqb c ","); [apply IHe in H; lia|].
      destruct (Ascii.eqb c "]"); [|discriminate].
      injection H as _ <-. lia.
    + intros s acc v r H. rewrite parseMembers_S in H.
      destruct (skipWs s) as [|q r0] eqn:Ews; [discriminate|].
      apply skipWs_cons_length in Ews.
      destruct (Ascii.eqb q dquote); [|discriminate].
      destruct (parseStringBody r0) as [[k r1]|] eqn:Ek; [|discriminate].
      apply parseStringBody_length in Ek.
      destruct (skipWs r1) as [|colon r2] eqn:Ews1; [discriminate|].
      apply skipWs_cons_length in Ews1.
      destruct (Ascii.eqb colon ":"); [|discriminate].
      destruct (parseValue fuel r2) as [[v0 r3]|] eqn:Ev; [|discriminate].
      apply IHv in Ev.
      destruct (skipWs r3) as [|c r'] eqn:Ews3; [discriminate|].
      apply skipWs_cons_length in Ews3.
      destruct (Ascii.eqb c ","); [apply IHm in H; lia|].
      destruct (Ascii.eqb c "}"); [|discriminate].
      injection H as _ <-. lia.
Qed.

(** Above two units of fuel per character, one more unit changes nothing. *)
Lemma parse_fuel_step (fuel : nat) :
  (forall s, 2 * String.length s + 2 <= fuel ->
             parseValue (S fuel) s = parseValue fuel s)
  /\ (forall s acc, 2 * String.length s + 3 <= fuel ->
                    parseElements (S fuel) s acc = parseElements fuel s acc)
  /\ (forall s acc, 2 * String.length s + 1 <= fuel ->
                    parseMembers (S fuel) s acc = parseMembers fuel s acc).
Proof.
  induction fuel as [|fuel (IHv & IHe & IHm)].
  - repeat split; intros; lia.
  - repeat split.
    + intros s Hf. rewrite (parseValue_S (S fuel)), (parseValue_S fuel).
      destruct (skipWs s) as [|c r0] eqn:Ews; [reflexivity|].
      apply skipWs_cons_length in Ews.
      destruct (Ascii.eqb c dquote); [reflexivity|].
      destruct (Ascii.eqb c "[").
      { destruct (skipWs r0) as [|c' r'] eqn:E2; [reflexivity|].
        destruct (Ascii.eqb c' "]"); [reflexivity|].
        apply IHe. lia. }
      destruct (Ascii.eqb c "{"); [|reflexivity].
      destruct (skipWs r0) as [|c' r'] eqn:E2; [reflexivity|].
      destruct (Ascii.eqb c' "}"); [reflexivity|].
      apply IHm. lia.
    + intros s acc Hf.
      rewrite (parseElements_S (S fuel)), (parseElements_S fuel).
      rewrite IHv by lia.
      destruct (parseValue fuel s) as [[v0 r0]|] eqn:Ev; [|reflexivity].
      apply parse_length in Ev.
      destruct (skipWs r0) as [|c r'] eqn:Ews; [reflexivity|].
      apply skipWs_cons_length in Ews.
      destruct (Ascii.eqb c ","); [|reflexivity].
      apply IHe. lia.
    + intros s acc Hf.
      rewrite (parseMembers_S (S fuel)), (parseMembers_S fuel).
      destruct (skipWs s) as [|q r0] eqn:Ews; [reflexivity|].
      apply skipWs_cons_length in Ews.
      destruct (Ascii.eqb q dquote); [|reflexivity].
      destruct (parseStringBody r0) as [[k r1]|] eqn:Ek; [|reflexivity].
      apply parseStringBody_length in Ek.
      destruct (skipWs r1) as [|colon r2] eqn:Ews1; [reflexivity|].
      apply skipWs_cons_length in Ews1.
      destruct (Ascii.eqb colon ":"); [|reflexivity].
      rewrite IHv by lia.
      destruct (parseValue fuel r2) as [[v0 r3]|] eqn:Ev; [|reflexivity].
      apply parse_length in Ev.
      destruct (skipWs r3) as [|c r'] eqn:Ews3; [reflexivity|].
      apply skipWs_cons_length in Ews3.
      destruct (Ascii.eqb c ","); [|reflexivity].
      apply IHm. lia.
Qed.

(** The fuel [JSON_parse] supplies is enough: any larger amount gives the
    same answer, success or failure. *)
Lemma parseValue_enough_fuel (text : string) (fuel : nat) :
  2 * String.length text + 2 <= fuel ->
  parseValue fuel text = parseValue (2 * String.length text + 2) text.
Proof.
  induction 1 as [|fuel Hle IH]; [reflexivity|].
  rewrite <- IH. now apply parse_fuel_step.
Qed.

End Fuel.

(** ** The JSON codec on decks *)

Section JsonRoundTrip.

Lemma length_append (a b : string) :
  String.length (a ++ b) = String.length a + String.length b.
Proof. induction a as [|c a IH]; cbn [append String.length]; [reflexivity | now rewrite IH]. Qed.

Lemma parseStringBody_escapeChar (c : ascii) (r : string) :
  parseStringBody (escapeChar c ++ r) = consChar c (parseStringBody r).
Proof. destruct c as [[] [] [] [] [] [] [] []]; reflexivity. Qed.

Lemma parseStringBody_escapeString (s rest : string) :
  parseStringBody (escapeString s ++ String dquote rest) = Some (s, rest).
Proof.
  induction s as [|c s IH].
  - reflexivity.
  - cbn [escapeString]. rewrite append_assoc, parseStringBody_escapeChar, IH.
    reflexivity.
Qed.

Lemma skipWs_head (c : ascii) (r : string) :
  isJsonWs c = false -> skipWs (String c r) = String c r.
Proof. intros H. cbn [skipWs]. now rewrite H. Qed.

Lemma parseValue_string (fuel : nat) (s rest : string) :
  parseValue (S fuel) (quoteJSONString s ++ rest) = Some (JStr s, rest).
Proof.
  unfold quoteJSONString. cbn [append]. rewrite append_assoc. cbn [append].
  change (parseValue (S fuel) (String dquote (escapeString s ++ String dquote rest)))
    with (match parseStringBody (escapeString s ++ String dquote rest) with
          | Some (str, rest') => Some (JStr str, rest')
          | None => None
          end).
  now rewrite parseStringBody_escapeString.
Qed.

(** One member with a string value, followed by a comma or by the closing
    brace. *)
Lemma parseMembers_member (fuel : nat) (k s : string) (c : ascii) (r : string)
  (acc : list (string * jsval)) :
  isJsonWs c = false ->
  parseMembers (S (S fuel))
    (quoteJSONString k ++ String ":" (quoteJSONString s ++ String c r)) acc
  = if Ascii.eqb c ","
    then parseMembers (S fuel) r (setProp k (JStr s) acc)
    else if Ascii.eqb c "}"
    then Some (JObj (setProp k (JStr s) acc), r)
    else None.
Proof.
  intros Hc. unfold quoteJSONString at 1. cbn [append]. rewrite append_assoc.
  cbn [append].
  change (parseMembers (S (S fuel)) (String dquote ?x) acc) with
    (match parseStringBody x with
     | Some (k, r1) =>
       match skipWs r1 with
       | String colon r2 =>
         if Ascii.eqb colon ":"%char then
           match parseValue (S fuel) r2 with
           | Some (v, r3) =>
             match skipWs r3 with
             | String c r' =>
               if Ascii.eqb c ","%char
               then parseMembers (S fuel) r' (setProp k v acc)
               else if Ascii.eqb c "}"%char
                    then Some (JObj (setProp k v acc), r')
                    else None
             | EmptyString => None
             end
           | None => None
           end
         else None
       | EmptyString => None
       end
     | None => None
     end).
  rewrite parseStringBody_escapeString.
  rewrite skipWs_head by reflexivity. rewrite Ascii.eqb_refl.
  rewrite parseValue_string. rewrite skipWs_head by assumption.
  reflexivity.
Qed.

Lemma parseValue_open_brace (fuel : nat) (k r : string) :
  parseValue (S fuel) (String "{" (quoteJSONString k ++ r))
  = parseMembers fuel (quoteJSONString k ++ r) [].
Proof. reflexivity. Qed.

Lemma parseValue_open_bracket (fuel : nat) (r : string) :
  parseValue (S fuel) (String "[" (String "{" r))
  = parseElements fuel (String "{" r) [].
Proof. reflexivity. Qed.

Lemma parseValue_entry (fuel : nat) (e : Entry) (rest : string) :
  parseValue (6 + fuel) (JSON_stringify (entryJs e) ++ rest)
  = Some (entryJs e, rest).
Proof.
  destruct e as [title id | prompt response id];
    cbn [entryJs separator card JSON_stringify map join fst snd];
    rewrite !append_assoc; cbn [append plus];
    rewrite parseValue_open_brace;
    repeat (rewrite parseMembers_member by reflexivity; cbv beta iota);
    reflexivity.
Qed.

Lemma stringify_entry_head (e : Entry) :
  exists r, JSON_stringify (entryJs e) = String "{" r.
Proof. destruct e; eexists; reflexivity. Qed.

Lemma deckText_head (e : Entry) (entries : list Entry) (rest : string) :
  exists r, deckText (e :: entries) ++ rest = String "{" r.
Proof.
  unfold deckText. destruct (stringify_entry_head e) as [r Hr].
  destruct entries as [|e' entries]; cbn [map join]; rewrite Hr;
    eexists; reflexivity.
Qed.

Lemma parseElements_entries (entries : list Entry) :
  forall (fuel : nat) (e : Entry) (acc : list jsval) (rest : string),
    parseElements (7 + List.length entries + fuel)
      (deckText (e :: entries) ++ String "]" rest) acc
    = Some (JArr (acc ++ map entryJs (e :: entries)), rest).
Proof.
  unfold deckText.
  induction entries as [|e' entries IH]; intros fuel e acc rest.
  - cbn [map join List.length plus].
    change (parseElements (S (S (S (S (S (S (S fuel))))))) ?s acc) with
      (match parseValue (6 + fuel) s with
       | Some (v, r) =>
         match skipWs r with
         | String c r' =>
           if Ascii.eqb c ","%char
           then parseElements (6 + fuel) r' (acc ++ [v])
           else if Ascii.eqb c "]"%char then Some (JArr (acc ++ [v]), r')
           else None
         | EmptyString => None
         end
       | None => None
       end).
    rewrite parseValue_entry. reflexivity.
  - change (map JSON_stringify (map entryJs (e :: e' :: entries)))
      with (JSON_stringify (entryJs e)
            :: map JSON_stringify (map entryJs (e' :: entries))).
    change (join "," (?a :: map JSON_stringify (map entryJs (e' :: entries))))
      with (a ++ "," ++ join "," (map JSON_stringify (map entryJs (e' :: entries)))).
    rewrite !append_assoc. cbn [List.length plus].
    change (parseElements (S (S (S (S (S (S (S (S (List.length entries + fuel)))))))))
              ?s acc) with
      (match parseValue (6 + (S (List.length entries + fuel))) s with
       | Some (v, r) =>
         match skipWs r with
         | String c r' =>
           if Ascii.eqb c ","%char
           then parseElements (7 + List.length entries + fuel) r' (acc ++ [v])
           else if Ascii.eqb c "]"%char then Some (JArr (acc ++ [v]), r')
           else None
         | EmptyString => None
         end
       | None => None
       end).
    rewrite parseValue_entry. cbn [append]. rewrite skipWs_head by reflexivity.
    cbv beta iota. rewrite Ascii.eqb_refl.
    rewrite IH. now rewrite <- app_assoc.
Qed.

Lemma deckText_length (entries : list Entry) :
  List.length entries <= String.length (deckText entries).
Proof.
  unfold deckText. induction entries as [|e entries IH]; [apply Nat.le_0_l|].
  destruct (stringify_entry_head e) as [r Hr].
  destruct entries as [|e' entries].
  - cbn [map join]. rewrite Hr. cbn [String.length List.length]. lia.
  - change (map JSON_stringify (map entryJs (e :: e' :: entries)))
      with (JSON_stringify (entryJs e)
            :: map JSON_stringify (map entryJs (e' :: entries))).
    change (join "," (?a :: map JSON_stringify (map entryJs (e' :: entries))))
      with (a ++ "," ++ join "," (map JSON_stringify (map entryJs (e' :: entries)))).
    rewrite !length_append. cbn [String.length List.length] in *. lia.
Qed.

(** The snapshot of a non-empty deck of well-formed entries decodes to the
    deck it was written from. *)
Lemma JSON_parse_stringify_deck (entries : list Entry) :
  entries <> [] ->
  JSON_parse (JSON_stringify (JArr (map entryJs entries)))
  = Some (JArr (map entryJs entries)).
Proof.
  intros Hne. destruct entries as [|e entries]; [contradiction|].
  unfold JSON_parse. cbn [JSON_stringify].
  fold (deckText (e :: entries)).
  pose proof (deckText_length (e :: entries)) as Hlen.
  cbn [append]. cbn [String.length]. rewrite length_append.
  cbn [String.length List.length] in *.
  destruct (deckText_head e entries "]") as [r Hr].
  remember (deckText (e :: entries)) as text eqn:Htext.
  replace (2 * S (String.length text + 1) + 2)
    with (S (7 + List.length entries
             + (2 * String.length text - List.length entries - 2))) by lia.
  rewrite Hr. rewrite parseValue_open_bracket. rewrite <- Hr. subst text.
  rewrite parseElements_entries. reflexivity.
Qed.

End JsonRoundTrip.

(** ** Persistence *)

(** C7. The snapshot written for a non-empty deck of well-formed entries,
    read by the effect that runs at the start of a fresh process, installs
    the same deck: same entries, same fields and ids, same order. *)
Theorem snapshot_roundtrip (entries : list Entry) (st : State) (writeOk : bool) :
  entries <> [] ->
  cards st = map entryJs entries ->
  getItem STORAGE_KEY (storage (saveEffect true st))
  = Some (JSON_stringify (JArr (cards st)))
  /\ cards (mount writeOk (storage (saveEffect true st))) = cards st.
Proof.
  intros Hne Hcards.
  assert (Hsave : getItem STORAGE_KEY (storage (saveEffect true st))
                  = Some (JSON_stringify (JArr (cards st)))).
  { unfold saveEffect. rewrite Hcards.
    destruct entries as [|e entries]; [contradiction | reflexivity]. }
  split; [exact Hsave|].
  unfold mount, loadEffect, initialState. cbn [storage].
  rewrite Hsave, Hcards.
  assert (Hfalsy : falsy (JSON_stringify (JArr (map entryJs entries))) = false)
    by reflexivity.
  rewrite Hfalsy, JSON_parse_stringify_deck by assumption.
  destruct entries as [|e entries]; [contradiction|].
  cbn [map List.length Nat.ltb Nat.leb].
  unfold setCards, saveEffect. cbn [cards withCards List.length Nat.ltb Nat.leb].
  now destruct writeOk.
Qed.

Lemma snapshot_roundtrip_witness :
  cards (mount true
           (storage (saveEffect true
              (mkState [separator "a.csv" "sep-1-0.5"; card "Q" "A" "a.csv-0-1"]
                       [] emptyStorage [] []))))
  = [separator "a.csv" "sep-1-0.5"; card "Q" "A" "a.csv-0-1"].
Proof.
  apply (snapshot_roundtrip
           [Separator "a.csv" "sep-1-0.5"; Card "Q" "A" "a.csv-0-1"]
           (mkState [separator "a.csv" "sep-1-0.5"; card "Q" "A" "a.csv-0-1"]
                    [] emptyStorage [] []) true).
  - discriminate.
  - reflexivity.
Defined.

(** C10. At the start of a process the stored value becomes the deck only
    when it decodes to a non-empty array.  A stored value that decodes, but
    to something that is not an array or to the empty array, is not
    adopted: the process starts with the empty deck, nothing is sent to
    [console.error] and nothing is shown. *)
Theorem mount_wrong_shape (writeOk : bool) (stored : Storage) :
  (cards (mount writeOk stored) <> [] ->
   exists saved items,
     getItem STORAGE_KEY stored = Some saved
     /\ JSON_parse saved = Some (JArr items)
     /\ items <> []
     /\ cards (mount writeOk stored) = items)
  /\ (forall saved v,
        getItem STORAGE_KEY stored = Some saved ->
        JSON_parse saved = Some v ->
        isArray v = false \/ v = JArr [] ->
        cards (mount writeOk stored) = []
        /\ errors (mount writeOk stored) = []
        /\ alerts (mount writeOk stored) = []).
Proof.
  unfold mount, loadEffect, initialState. cbn [storage]. split.
  - destruct (getItem STORAGE_KEY stored) as [saved|] eqn:Hstored;
      [|intros H; now contradiction H].
    destruct (falsy saved); [intros H; now contradiction H|].
    destruct (JSON_parse saved) as [v|] eqn:Hparse;
      [|intros H; now contradiction H].
    destruct v as [| b | lit | str | items | props];
      try (intros H; now contradiction H).
    destruct items as [|x items]; [intros H; now contradiction H|].
    intros _. exists saved, (x :: items).
    split; [reflexivity|]. split; [exact Hparse|]. split; [discriminate|].
    cbn [List.length Nat.ltb Nat.leb]. unfold setCards, saveEffect.
    cbn [cards withCards List.length Nat.ltb Nat.leb]. now destruct writeOk.
  - intros saved v Hstored Hparse Hshape. rewrite Hstored.
    destruct saved as [|c saved]; [discriminate|]. cbn [falsy].
    rewrite Hparse.
    destruct Hshape as [Hna | ->].
    + destruct v; try discriminate; repeat split.
    + repeat split.
Qed.

Lemma mount_wrong_shape_witness :
  cards (mount true (setItem STORAGE_KEY "{}" emptyStorage)) = []
  /\ cards (mount true (setItem STORAGE_KEY " [ ] " emptyStorage)) = []
  /\ errors (mount true (setItem STORAGE_KEY "42" emptyStorage)) = [].
Proof.
  split; [|split].
  - apply (proj2 (mount_wrong_shape true (setItem STORAGE_KEY "{}" emptyStorage))
             "{}" (JObj [])); [reflexivity | reflexivity | now left].
  - apply (proj2 (mount_wrong_shape true (setItem STORAGE_KEY " [ ] " emptyStorage))
             " [ ] " (JArr [])); [reflexivity | reflexivity | now right].
  - apply (proj2 (mount_wrong_shape true (setItem STORAGE_KEY "42" emptyStorage))
             "42" (JNum "42")); [reflexivity | reflexivity | now left].
Defined.

(** ** Ingestion of several files *)

Section Ingestion.

Lemma cards_complete (ev : Completion) (st : State) :
  cards (complete ev st) = (cards st ++ blockOf ev)%list.
Proof.
  unfold complete, onload, setCards, saveEffect, appendBlock, blockOf.
  cbn [cards withCards].
  destruct (Nat.ltb _ _); [destruct (written ev)|]; reflexivity.
Qed.

Lemma cards_runCompletions (evs : list Completion) :
  forall st, cards (runCompletions evs st) = (cards st ++ flat_map blockOf evs)%list.
Proof.
  unfold runCompletions.
  induction evs as [|ev evs IH]; intros st; cbn [fold_left flat_map].
  - now rewrite app_nil_r.
  - rewrite IH, cards_complete. now rewrite <- app_assoc.
Qed.

(** A run of the readers is the fold of the handlers over the completions,
    and its completions are the started files in some order. *)
Lemma drains_runCompletions (files : list File) (st : State)
  (evs : list Completion) (st' : State) :
  drains files st evs st' ->
  st' = runCompletions evs st /\ Permutation (map file evs) files.
Proof.
  induction 1 as [st | before after ev st evs st' _ [IHrun IHperm]].
  - split; [reflexivity | constructor].
  - split; [exact IHrun|].
    cbn [map]. now apply Permutation_cons_app.
Qed.

(** Every order of completion is a run. *)
Lemma runCompletions_drains (evs : list Completion) :
  forall files st,
    Permutation (map file evs) files ->
    drains files st evs (runCompletions evs st).
Proof.
  induction evs as [|ev evs IH]; intros files st Hperm; cbn [map] in Hperm.
  - apply Permutation_nil in Hperm. subst files. constructor.
  - assert (Hin : In (file ev) files)
      by (eapply Permutation_in; [exact Hperm | now left]).
    apply in_split in Hin as (before & after & ->).
    apply Permutation_cons_app_inv in Hperm.
    apply drains_fire. now apply IH.
Qed.

Lemma countType_app (t : string) (a b : list jsval) :
  countType t (a ++ b) = countType t a + countType t b.
Proof. unfold countType. now rewrite filter_app, length_app. Qed.

Lemma countType_cardsFrom (name : string) (k : Clock) (parsed : list QA) :
  forall idx,
    countType "card" (cardsFrom name k idx parsed) = List.length parsed
    /\ countType "separator" (cardsFrom name k idx parsed) = 0.
Proof.
  induction parsed as [|p parsed IH]; intros idx; [split; reflexivity|].
  destruct (IH (S idx)) as [IHc IHs].
  cbn [cardsFrom]. unfold countType in *. cbn [filter].
  change (typeIs (card _ _ _) "card") with true.
  change (typeIs (card _ _ _) "separator") with false.
  cbn [List.length]. now rewrite IHc, IHs.
Qed.

Lemma countType_blockOf (ev : Completion) :
  countType "separator" (blockOf ev) = 1
  /\ countType "card" (blockOf ev) = pairsIn (file ev).
Proof.
  unfold blockOf, block, pairsIn.
  destruct (countType_cardsFrom (name (file ev)) (clock ev)
              (parseCSV (content (file ev))) 0) as [Hc Hs].
  unfold countType in *. cbn [filter].
  change (typeIs (separator _ _) "card") with false.
  change (typeIs (separator _ _) "separator") with true.
  cbn [List.length]. now rewrite Hc, Hs.
Qed.

Lemma countType_completions (evs : list Completion) :
  countType "separator" (flat_map blockOf evs) = List.length evs
  /\ countType "card" (flat_map blockOf evs)
     = list_sum (map pairsIn (map file evs)).
Proof.
  induction evs as [|ev evs [IHs IHc]]; [split; reflexivity|].
  destruct (countType_blockOf ev) as [Hs Hc].
  cbn [flat_map map list_sum List.length fold_right].
  rewrite !countType_app, Hs, Hc, IHs, IHc. split; reflexivity.
Qed.

Lemma list_sum_Permutation (l l' : list nat) :
  Permutation l l' -> list_sum l = list_sum l'.
Proof.
  unfold list_sum. induction 1; cbn [fold_right] in *; lia.
Qed.

(** The cards of a block show the parsed pairs, in the order of parsing. *)
Lemma faces_cardsFrom (name : string) (k : Clock) (parsed : list QA) :
  forall idx,
    map faces (cardsFrom name k idx parsed)
    = map (fun p => (Some (JStr (question p)), Some (JStr (answer p)))) parsed.
Proof.
  induction parsed as [|p parsed IH]; intros idx; [reflexivity|].
  cbn [cardsFrom map]. now rewrite IH.
Qed.

End Ingestion.

(** C1. Whatever the order in which the readers of the started files
    complete, the run ends, and its final deck is the initial one followed
    by one block for each completion, in the order of completion: one
    separator for each file and as many cards as its content parses to,
    the cards of a file right after its separator, showing the parsed
    pairs in the order of parsing.  Nothing is lost and nothing is added. *)
Theorem concurrent_ingestion (files : list File) (evs : list Completion)
  (st0 : State) :
  Permutation (map file evs) files ->
  exists st',
    drains (handleFiles files []) st0 evs st'
    /\ (forall st'', drains (handleFiles files []) st0 evs st'' -> st'' = st')
    /\ cards st' = (cards st0 ++ flat_map blockOf evs)%list
    /\ countType "separator" (cards st')
       = countType "separator" (cards st0) + List.length files
    /\ countType "card" (cards st')
       = countType "card" (cards st0) + list_sum (map pairsIn files)
    /\ (forall ev, In ev evs ->
        exists before after,
          cards st'
          = (before
             ++ separator (name (file ev)) (sepId (clock ev))
                :: cardsFrom (name (file ev)) (clock ev) 0
                     (parseCSV (content (file ev)))
             ++ after)%list
          /\ map faces (cardsFrom (name (file ev)) (clock ev) 0
                          (parseCSV (content (file ev))))
             = map (fun p => (Some (JStr (question p)), Some (JStr (answer p))))
                   (parseCSV (content (file ev)))).
Proof.
  intros Hperm. exists (runCompletions evs st0).
  change (handleFiles files []) with files.
  destruct (countType_completions evs) as [Hs Hc].
  repeat split.
  - now apply runCompletions_drains.
  - intros st'' Hd. now apply drains_runCompletions in Hd as [-> _].
  - apply cards_runCompletions.
  - rewrite cards_runCompletions, countType_app, Hs.
    rewrite <- (Permutation_length Hperm). now rewrite length_map.
  - rewrite cards_runCompletions, countType_app, Hc.
    f_equal. apply list_sum_Permutation. now apply Permutation_map.
  - intros ev Hin. rewrite cards_runCompletions.
    apply in_split in Hin as (l1 & l2 & ->).
    exists (cards st0 ++ flat_map blockOf l1)%list, (flat_map blockOf l2).
    split; [|apply faces_cardsFrom].
    rewrite flat_map_app. cbn [flat_map]. unfold blockOf at 2, block.
    rewrite <- !app_assoc. reflexivity.
Qed.

Lemma concurrent_ingestion_witness :
  exists st',
    drains (handleFiles [mkFile "a.csv" "Q1,A1"; mkFile "b.csv" ""] [])
      (initialState emptyStorage)
      [mkCompletion (mkFile "b.csv" "") (mkClock 7 "0.5" (fun _ => 7%N)) true;
       mkCompletion (mkFile "a.csv" "Q1,A1") (mkClock 9 "0.25" (fun _ => 9%N)) true]
      st'
    /\ cards st'
       = [separator "b.csv" "sep-7-0.5"; separator "a.csv" "sep-9-0.25";
          card "Q1" "A1" "a.csv-0-9"].
Proof.
  destruct (concurrent_ingestion
              [mkFile "a.csv" "Q1,A1"; mkFile "b.csv" ""]
              [mkCompletion (mkFile "b.csv" "") (mkClock 7 "0.5" (fun _ => 7%N)) true;
               mkCompletion (mkFile "a.csv" "Q1,A1") (mkClock 9 "0.25" (fun _ => 9%N)) true]
              (initialState emptyStorage))
    as (st' & Hrun & _ & Hcards & _).
  - apply perm_swap.
  - exists st'. split; [exact Hrun | exact Hcards].
Defined.

(** ** Identifiers *)

(** C2. Entry ids are not pairwise distinct in every reachable deck: the
    id of a card is made of the source name, the index of the card and the
    clock reading, so two loads of the same URL whose updaters read the
    same millisecond give their cards the same ids, while the two
    separators differ by their random part. *)
Theorem ids_collide_within_a_millisecond :
  let response := FetchResolves true (TextOk "Q,A") in
  let first := mkClock 1000 "0.25" (fun _ => 1000%N) in
  let second := mkClock 1000 "0.75" (fun _ => 1000%N) in
  let deck :=
    cards (run emptyStorage [UrlLoaded true "/mnt/data/Tecnologias 1.csv" response first;
                     UrlLoaded true "/mnt/data/Tecnologias 1.csv" response second]) in
  ids deck
  = [Some (JStr "sep-1000-0.25"); Some (JStr "Tecnologias 1.csv-0-1000");
     Some (JStr "sep-1000-0.75"); Some (JStr "Tecnologias 1.csv-0-1000")]
  /\ ~ NoDup (ids deck).
Proof.
  cbv zeta. split; [reflexivity|].
  intros Hnodup. vm_compute in Hnodup.
  apply NoDup_cons_iff in Hnodup as [_ Hnodup].
  apply NoDup_cons_iff in Hnodup as [Hin _].
  apply Hin. right. left. reflexivity.
Qed.

(** * Further properties of the code *)

Import Runs.
(** ** Persistence over whole runs *)

Section RunFacts.

Lemma saveEffect_cards (w : bool) (st : State) :
  cards (saveEffect w st) = cards st.
Proof.
  unfold saveEffect. destruct (Nat.ltb _ _); [destruct w|]; reflexivity.
Qed.

Lemma saveEffect_other_keys (w : bool) (st : State) (key : string) :
  String.eqb key STORAGE_KEY = false ->
  getItem key (storage (saveEffect w st)) = getItem key (storage st).
Proof.
  intros Hkey. unfold saveEffect.
  destruct (Nat.ltb _ _); [destruct w|];
    cbn [storage withStorage consoleError]; unfold getItem, setItem, removeItem;
    try rewrite Hkey; reflexivity.
Qed.

Lemma act_other_keys (st : State) (a : Action) (key : string) :
  String.eqb key STORAGE_KEY = false ->
  getItem key (storage (act st a)) = getItem key (storage st).
Proof.
  intros Hkey. destruct a as [ev | w url net k | w confirmed | id]; cbn [act].
  - unfold complete, onload, setCards. now rewrite saveEffect_other_keys.
  - unfold loadFromUrl. destruct net as [m | ok [text | m]]; try reflexivity.
    + destruct ok; cbn [negb]; [|reflexivity].
      unfold setCards. now rewrite saveEffect_other_keys.
    + now destruct ok.
  - unfold clearAll. destruct confirmed; cbn [negb]; [|reflexivity].
    rewrite saveEffect_other_keys by assumption.
    cbn [storage withStorage withFlipped withCards].
    unfold getItem, removeItem. now rewrite Hkey.
  - unfold toggleFlip. now destruct (existsb _ _).
Qed.

Lemma mount_other_keys (w : bool) (stored : Storage) (key : string) :
  String.eqb key STORAGE_KEY = false ->
  getItem key (storage (mount w stored)) = getItem key stored.
Proof.
  intros Hkey. unfold mount.
  assert (Hload : storage (fst (loadEffect (initialState stored))) = stored).
  { unfold loadEffect, initialState. cbn [storage].
    destruct (getItem STORAGE_KEY stored) as [saved|]; [|reflexivity].
    destruct (falsy saved); [reflexivity|].
    destruct (JSON_parse saved) as [[| | | | items |]|]; try reflexivity.
    now destruct (Nat.ltb _ _). }
  destruct (loadEffect (initialState stored)) as [st1 pending].
  cbn [fst] in Hload.
  destruct pending as [parsed|]; unfold setCards;
    rewrite ?saveEffect_other_keys by assumption;
    cbn [storage withCards]; rewrite ?saveEffect_other_keys by assumption;
    now rewrite Hload.
Qed.

End RunFacts.

(** X1. The app reads and writes one key of [localStorage] only: whatever
    the stored items, the start of the process and any sequence of actions
    leave the item of every other key as it was. *)
Theorem session_other_keys (w : bool) (stored : Storage)
  (actions : list Action) (key : string) :
  key <> STORAGE_KEY ->
  getItem key (storage (session w stored actions)) = getItem key stored.
Proof.
  intros Hkey. apply String.eqb_neq in Hkey. unfold session.
  rewrite <- (mount_other_keys w stored key Hkey).
  generalize (mount w stored). 
  induction actions as [|a actions IH]; intros st; cbn [fold_left].
  - reflexivity.
  - rewrite IH. now apply act_other_keys.
Qed.

Section Sync.

Lemma getItem_setItem (key value : string) (items : Storage) :
  getItem key (setItem key value items) = Some value.
Proof. unfold getItem, setItem. now rewrite String.eqb_refl. Qed.

Lemma getItem_removeItem (key : string) (items : Storage) :
  getItem key (removeItem key items) = None.
Proof. unfold getItem, removeItem. now rewrite String.eqb_refl. Qed.

Lemma saveEffect_synced (st : State) : synced (saveEffect true st).
Proof.
  unfold synced, saveEffect.
  destruct (cards st) as [|c deck] eqn:Hdeck; cbn [List.length Nat.ltb Nat.leb].
  - cbn [storage cards withStorage]. rewrite Hdeck. apply getItem_removeItem.
  - cbn [storage cards withStorage]. rewrite Hdeck. apply getItem_setItem.
Qed.

Lemma act_synced (st : State) (a : Action) :
  writesOk a = true -> synced st -> synced (act st a).
Proof.
  intros Hw Hst. destruct a as [ev | w url net k | w confirmed | id];
    cbn [act writesOk] in *.
  - unfold complete, onload, setCards. rewrite Hw. apply saveEffect_synced.
  - subst w. unfold loadFromUrl.
    destruct net as [m | ok [text | m]]; try exact Hst.
    + destruct ok; cbn [negb]; [|exact Hst].
      unfold setCards. apply saveEffect_synced.
    + destruct ok; exact Hst.
  - subst w. unfold clearAll. destruct confirmed; cbn [negb]; [|exact Hst].
    apply saveEffect_synced.
  - unfold toggleFlip. destruct (existsb _ _); exact Hst.
Qed.

Lemma mount_synced (stored : Storage) : synced (mount true stored).
Proof.
  unfold mount. destruct (loadEffect (initialState stored)) as [st1 [parsed|]].
  - unfold setCards. apply saveEffect_synced.
  - apply saveEffect_synced.
Qed.

End Sync.

Lemma actions_synced (actions : list Action) :
  forall st,
    forallb writesOk actions = true -> synced st ->
    synced (fold_left act actions st).
Proof.
  induction actions as [|a actions IH]; intros st Hall Hst; cbn [fold_left].
  - exact Hst.
  - cbn [forallb] in Hall. apply andb_prop in Hall as [Ha Hall].
    apply IH; [exact Hall|]. now apply act_synced.
Qed.

(** X3. A failed snapshot write does not undo the load: when [setItem]
    throws, the completed file's block is still appended to the deck in
    memory, [localStorage] keeps what it held, and the failure is logged
    once on the console. *)
Theorem complete_write_failure (ev : Completion) (st : State) :
  written ev = false ->
  cards (complete ev st) = (cards st ++ blockOf ev)%list
  /\ storage (complete ev st) = storage st
  /\ errors (complete ev st) = (errors st ++ ["Error guardando datos:"])%list
  /\ alerts (complete ev st) = alerts st.
Proof.
  intros Hw. unfold complete, onload, setCards, saveEffect, appendBlock, blockOf.
  rewrite Hw. cbn [cards withCards]. unfold block.
  rewrite length_app. cbn [List.length].
  replace (Nat.ltb 0 _) with true by (symmetry; apply Nat.ltb_lt; lia).
  repeat split.
Qed.

Lemma complete_write_failure_witness :
  cards (complete (mkCompletion (mkFile "a.csv" "Q,A")
                     (mkClock 5 "0.5" (fun _ => 5%N)) false)
           (initialState emptyStorage))
  = [separator "a.csv" "sep-5-0.5"; card "Q" "A" "a.csv-0-5"]
  /\ getItem STORAGE_KEY
       (storage (complete (mkCompletion (mkFile "a.csv" "Q,A")
                             (mkClock 5 "0.5" (fun _ => 5%N)) false)
                   (initialState emptyStorage)))
     = None.
Proof.
  destruct (complete_write_failure
              (mkCompletion (mkFile "a.csv" "Q,A")
                 (mkClock 5 "0.5" (fun _ => 5%N)) false)
              (initialState emptyStorage) eq_refl) as (Hc & Hs & _).
  split; [exact Hc | now rewrite Hs].
Defined.

(** X4. A stored text without backslash escapes that cannot be decoded is
    dropped at the start: the deck is empty, the failure is logged once on
    the console, nothing is shown, and the item is removed from
    [localStorage].  For such a stored text, whenever the start ends with
    the empty deck the item is gone. *)
Theorem mount_undecodable (w : bool) (stored : Storage) (saved : string) :
  getItem STORAGE_KEY stored = Some saved ->
  includes saved backslash = false ->
  (saved <> "" ->
   JSON_parse saved = None ->
   cards (mount w stored) = []
   /\ errors (mount w stored) = ["Error cargando datos guardados:"]
   /\ alerts (mount w stored) = []
   /\ getItem STORAGE_KEY (storage (mount w stored)) = None)
  /\ (cards (mount w stored) = [] ->
      getItem STORAGE_KEY (storage (mount w stored)) = None).
Proof.
  intros Hstored _.
  assert (Hgone : cards (mount w stored) = [] ->
                  getItem STORAGE_KEY (storage (mount w stored)) = None).
  { unfold mount. destruct (loadEffect (initialState stored)) as [st1 [parsed|]].
    - unfold setCards. rewrite saveEffect_cards. cbn [cards withCards].
      intros ->. unfold saveEffect.
      cbn [cards withCards List.length Nat.ltb Nat.leb].
      cbn [storage withStorage]. apply getItem_removeItem.
    - intros Hc. rewrite saveEffect_cards in Hc. unfold saveEffect. rewrite Hc.
      cbn [List.length Nat.ltb Nat.leb storage withStorage].
      apply getItem_removeItem. }
  split; [|exact Hgone].
  intros Hne Hparse.
  assert (Hstate : cards (mount w stored) = []
                   /\ errors (mount w stored) = ["Error cargando datos guardados:"]
                   /\ alerts (mount w stored) = []).
  { unfold mount, loadEffect, initialState. cbn [storage]. rewrite Hstored.
    destruct saved as [|c saved]; [contradiction|]. cbn [falsy].
    rewrite Hparse. repeat split. }
  destruct Hstate as (Hc & He & Ha). repeat split; try assumption.
  now apply Hgone.
Qed.

Lemma mount_undecodable_witness :
  errors (mount true (setItem STORAGE_KEY "[1,2" emptyStorage))
  = ["Error cargando datos guardados:"]
  /\ getItem STORAGE_KEY (storage (mount true (setItem STORAGE_KEY "[1,2" emptyStorage)))
     = None.
Proof.
  destruct (mount_undecodable true (setItem STORAGE_KEY "[1,2" emptyStorage)
              "[1,2" eq_refl eq_refl) as [Hbad _].
  destruct Hbad as (_ & He & _ & Hgone); [discriminate | reflexivity |].
  split; [exact He | exact Hgone].
Defined.

(** X5. The start removes the stored item before it writes it again: when
    the stored text is the snapshot of a non-empty deck of separators and
    cards and the write that follows its adoption fails, the deck is in
    memory but nothing is left under [STORAGE_KEY], and the failure is
    logged. *)
Theorem mount_write_failure (stored : Storage) (entries : list Entry) :
  entries <> [] ->
  getItem STORAGE_KEY stored
  = Some (JSON_stringify (JArr (map entryJs entries))) ->
  cards (mount false stored) = map entryJs entries
  /\ getItem STORAGE_KEY (storage (mount false stored)) = None
  /\ errors (mount false stored) = ["Error guardando datos:"].
Proof.
  intros Hne Hstored.
  pose proof (JSON_parse_stringify_deck entries Hne) as Hparse.
  unfold mount, loadEffect, initialState. cbn [storage]. rewrite Hstored.
  assert (Hfalsy : falsy (JSON_stringify (JArr (map entryJs entries))) = false)
    by reflexivity.
  rewrite Hfalsy, Hparse.
  destruct entries as [|e entries]; [contradiction|].
  cbn [map List.length Nat.ltb Nat.leb]. unfold setCards, saveEffect.
  cbn [cards withCards withStorage List.length Nat.ltb Nat.leb storage errors
       consoleError].
  repeat split.
Qed.

Lemma mount_write_failure_witness :
  cards (mount false
           (setItem STORAGE_KEY
              (JSON_stringify (JArr [separator "a.csv" "s"; card "Q" "A" "c"]))
              emptyStorage))
  = [separator "a.csv" "s"; card "Q" "A" "c"]
  /\ getItem STORAGE_KEY
       (storage (mount false
          (setItem STORAGE_KEY
             (JSON_stringify (JArr [separator "a.csv" "s"; card "Q" "A" "c"]))
             emptyStorage))) = None
  /\ errors (mount false
       (setItem STORAGE_KEY
          (JSON_stringify (JArr [separator "a.csv" "s"; card "Q" "A" "c"]))
          emptyStorage))
     = ["Error guardando datos:"].
Proof.
  apply (mount_write_failure
           (setItem STORAGE_KEY
              (JSON_stringify (JArr [separator "a.csv" "s"; card "Q" "A" "c"]))
              emptyStorage)
           [Separator "a.csv" "s"; Card "Q" "A" "c"]);
    [discriminate | reflexivity].
Defined.

Section AppendOnly.

Lemma act_appends (st : State) (a : Action) :
  isConfirmedClear a = false ->
  exists added, cards (act st a) = (cards st ++ added)%list.
Proof.
  intros Hclear. destruct a as [ev | w url net k | w confirmed | id];
    cbn [act isConfirmedClear] in *.
  - exists (blockOf ev). apply cards_complete.
  - unfold loadFromUrl. destruct net as [m | ok [text | m]].
    + exists []. now rewrite app_nil_r.
    + destruct ok; cbn [negb].
      * eexists. unfold setCards. rewrite saveEffect_cards. reflexivity.
      * exists []. now rewrite app_nil_r.
    + exists []. destruct ok; now rewrite app_nil_r.
  - subst confirmed. exists []. now rewrite app_nil_r.
  - exists []. unfold toggleFlip. destruct (existsb _ _); now rewrite app_nil_r.
Qed.

End AppendOnly.

(** X6. The deck only grows between two confirmed clears: after any
    sequence of actions none of which is a confirmed [clearAll], the deck
    starts with the deck before, entry for entry. *)
Theorem actions_append_only (actions : list Action) (st : State) :
  forallb (fun a => negb (isConfirmedClear a)) actions = true ->
  exists added, cards (fold_left act actions st) = (cards st ++ added)%list.
Proof.
  revert st. induction actions as [|a actions IH]; intros st Hall; cbn [fold_left].
  - exists []. now rewrite app_nil_r.
  - cbn [forallb] in Hall. apply andb_prop in Hall as [Ha Hall].
    apply negb_true_iff in Ha.
    destruct (act_appends st a Ha) as [added1 H1].
    destruct (IH (act st a) Hall) as [added2 H2].
    exists (added1 ++ added2)%list. now rewrite H2, H1, app_assoc.
Qed.

Lemma actions_append_only_witness :
  exists added,
    cards (fold_left act
             [FileLoaded (mkCompletion (mkFile "b.csv" "R,S")
                            (mkClock 7 "0.25" (fun _ => 7%N)) true);
              UrlLoaded true "x/c.csv" (FetchResolves false (TextOk "Q,A"))
                (mkClock 5 "0.5" (fun _ => 5%N));
              Cleared true false;
              UrlLoaded true "x/c.csv" (FetchResolves true (TextOk "Q,A"))
                (mkClock 9 "0.75" (fun _ => 9%N));
              Flipped "x"]
             (mkState [separator "a.csv" "s"] [] emptyStorage [] []))
    = (separator "a.csv" "s" :: added)%list
    /\ added = [separator "b.csv" "sep-7-0.25"; card "R" "S" "b.csv-0-7";
                separator "c.csv" "sep-9-0.75"; card "Q" "A" "c.csv-0-9"].
Proof.
  destruct (actions_append_only
              [FileLoaded (mkCompletion (mkFile "b.csv" "R,S")
                             (mkClock 7 "0.25" (fun _ => 7%N)) true);
               UrlLoaded true "x/c.csv" (FetchResolves false (TextOk "Q,A"))
                 (mkClock 5 "0.5" (fun _ => 5%N));
               Cleared true false;
               UrlLoaded true "x/c.csv" (FetchResolves true (TextOk "Q,A"))
                 (mkClock 9 "0.75" (fun _ => 9%N));
               Flipped "x"]
              (mkState [separator "a.csv" "s"] [] emptyStorage [] []) eq_refl)
    as [added Hadded].
  exists added. split; [exact Hadded|].
  vm_compute in Hadded. now injection Hadded as <-.
Defined.

(** ** The flipped set *)

(** X7. [toggleFlip] changes the membership of its id and of no other: the
    id is in the set afterwards exactly when it was not before, every other
    id stays in or out, a set without repetition stays so, and the deck is
    untouched. *)
Theorem toggleFlip_membership (id : string) (st : State) :
  (In id (flipped (toggleFlip id st)) <-> ~ In id (flipped st))
  /\ (forall other, other <> id ->
        (In other (flipped (toggleFlip id st)) <-> In other (flipped st)))
  /\ (NoDup (flipped st) -> NoDup (flipped (toggleFlip id st)))
  /\ cards (toggleFlip id st) = cards st.
Proof.
  unfold toggleFlip.
  destruct (existsb (String.eqb id) (flipped st)) eqn:Hin.
  - apply existsb_exists in Hin as (x & Hx & Heq).
    apply String.eqb_eq in Heq. subst x.
    cbn [flipped withFlipped cards].
    split; [split | split; [intros other Hne; split | split]].
    + intros H. apply filter_In in H as [_ H].
      now rewrite String.eqb_refl in H.
    + intros H. contradiction.
    + intros H. now apply filter_In in H.
    + intros H. apply filter_In. split; [exact H|].
      apply negb_true_iff, String.eqb_neq. congruence.
    + intros Hnd. now apply NoDup_filter.
    + reflexivity.
  - assert (Hout : ~ In id (flipped st)).
    { intros H. apply Bool.not_true_iff_false in Hin. apply Hin.
      apply existsb_exists. exists id. split; [exact H | apply String.eqb_refl]. }
    cbn [flipped withFlipped cards].
    split; [split | split; [intros other Hne; split | split]].
    + intros _. exact Hout.
    + intros _. apply in_or_app. right. now left.
    + intros H. apply in_app_or in H as [H | [H | []]]; [exact H | congruence].
    + intros H. apply in_or_app. now left.
    + intros Hnd. apply NoDup_app; [exact Hnd | repeat constructor; auto|].
      intros x Hx [<- | []]. contradiction.
    + reflexivity.
Qed.

Lemma toggleFlip_membership_witness :
  In "b" (flipped (toggleFlip "a" (mkState [] ["a"; "b"] emptyStorage [] [])))
  /\ NoDup (flipped (toggleFlip "a" (mkState [] ["a"; "b"] emptyStorage [] []))).
Proof.
  pose proof (toggleFlip_membership "a" (mkState [] ["a"; "b"] emptyStorage [] []))
    as (_ & Hother & Hnd & _).
  split.
  - apply (Hother "b"); [discriminate | right; now left].
  - apply Hnd. repeat constructor; cbn; intuition discriminate.
Defined.

(** ** The viewer *)

Section ViewerFacts.
Import Viewer.

Lemma deckLength_app (deck more : list jsval) :
  deckLength (deck ++ more) = (deckLength deck + deckLength more)%Z.
Proof. unfold deckLength. rewrite length_app. lia. Qed.

Lemma deckLength_nonneg (deck : list jsval) : (0 <= deckLength deck)%Z.
Proof. unfold deckLength. lia. Qed.

End ViewerFacts.

Import Viewer.

(** X8. The viewer always shows an entry: an index inside the deck stays
    inside it under [next], [prev], a click on the card, the three touch
    handlers and the growth of the deck, and [cards[index]] is then
    defined; the initial index is inside every non-empty deck. *)
Theorem viewer_index_in_deck (deck : list jsval) (v : View) :
  inDeck deck v ->
  inDeck deck (next deck v)
  /\ inDeck deck (prev deck v)
  /\ inDeck deck (flipCard v)
  /\ (forall x, inDeck deck (onTouchStart x v) /\ inDeck deck (onTouchMove x v))
  /\ inDeck deck (onTouchEnd deck v)
  /\ (forall more, inDeck (deck ++ more) v)
  /\ current deck v <> None
  /\ inDeck deck initialView.
Proof.
  unfold inDeck. intros Hv.
  pose proof (deckLength_nonneg deck) as Hlen.
  repeat split; cbn [index next prev flipCard onTouchStart onTouchMove initialView];
    try lia.
  - unfold onTouchEnd. destruct (touchStart v) as [s|]; [|lia].
    destruct (touchEnd v) as [e|]; [|lia].
    destruct ((s =? 0)%Z || (e =? 0)%Z); [lia|]. cbv zeta.
    destruct ((s - e >? minSwipeDistance)%Z && (index v <? deckLength deck - 1)%Z);
      destruct ((s - e <? - minSwipeDistance)%Z && (index v >? 0)%Z);
      cbn [index next prev]; lia.
  - unfold onTouchEnd. destruct (touchStart v) as [s|]; [|lia].
    destruct (touchEnd v) as [e|]; [|lia].
    destruct ((s =? 0)%Z || (e =? 0)%Z); [lia|]. cbv zeta.
    destruct ((s - e >? minSwipeDistance)%Z && (index v <? deckLength deck - 1)%Z);
      destruct ((s - e <? - minSwipeDistance)%Z && (index v >? 0)%Z);
      cbn [index next prev]; lia.
  - rewrite deckLength_app. pose proof (deckLength_nonneg more). lia.
  - unfold current. destruct (index v <? 0)%Z eqn:Hneg; [lia|].
    apply nth_error_Some. unfold deckLength in Hv. lia.
Qed.

Lemma viewer_index_in_deck_witness :
  inDeck [JNull; JNull] (next [JNull; JNull] (next [JNull; JNull] initialView)).
Proof.
  apply (viewer_index_in_deck [JNull; JNull] (next [JNull; JNull] initialView)).
  apply (viewer_index_in_deck [JNull; JNull] initialView).
  unfold inDeck. cbn. lia.
Defined.

(** X9. The two buttons are disabled exactly when their handler would not
    move: inside the deck [next] advances by one unless [index] is the last
    one and [prev] goes back by one unless it is 0; going forth and back
    returns to the same entry; both show the front of the card. *)
Theorem viewer_navigation (deck : list jsval) (v : View) :
  inDeck deck v ->
  index (next deck v) = (if nextDisabled deck v then index v else index v + 1)%Z
  /\ index (prev deck v) = (if prevDisabled v then index v else index v - 1)%Z
  /\ (nextDisabled deck v = false -> index (prev deck (next deck v)) = index v)
  /\ (prevDisabled v = false -> index (next deck (prev deck v)) = index v)
  /\ flip (next deck v) = false
  /\ flip (prev deck v) = false.
Proof.
  unfold inDeck, nextDisabled, prevDisabled. intros Hv.
  cbn [index flip next prev].
  destruct (index v =? deckLength deck - 1)%Z eqn:Hlast;
    destruct (index v =? 0)%Z eqn:Hfirst;
    repeat split; try discriminate; lia.
Qed.

Lemma viewer_navigation_witness :
  index (next [JNull; JNull; JNull] initialView) = 1%Z
  /\ index (prev [JNull; JNull; JNull] initialView) = 0%Z.
Proof.
  destruct (viewer_navigation [JNull; JNull; JNull] initialView) as (Hn & Hp & _).
  - unfold inDeck. cbn. lia.
  - split; [exact Hn | exact Hp].
Defined.

(** X10. A touch gesture moves by at most one entry and only when it is
    long enough: with whole-pixel coordinates, a gesture whose start or end
    is missing or is the coordinate 0, or whose ends are at most 50 pixels
    apart, changes nothing; a longer one to the left shows the next entry
    unless the last one is shown, a longer one to the right the previous
    entry unless the first one is shown. *)
Theorem swipe_moves_one (deck : list jsval) (v : View) :
  inDeck deck v ->
  (touchStart v = None \/ touchEnd v = None
   \/ touchStart v = Some 0%Z \/ touchEnd v = Some 0%Z ->
   onTouchEnd deck v = v)
  /\ (forall s e, touchStart v = Some s -> touchEnd v = Some e ->
        (Z.abs (s - e) <= 50)%Z -> onTouchEnd deck v = v)
  /\ (forall s e, touchStart v = Some s -> touchEnd v = Some e ->
        s <> 0%Z -> e <> 0%Z -> (s - e > 50)%Z ->
        onTouchEnd deck v = if nextDisabled deck v then v else next deck v)
  /\ (forall s e, touchStart v = Some s -> touchEnd v = Some e ->
        s <> 0%Z -> e <> 0%Z -> (s - e < -50)%Z ->
        onTouchEnd deck v = if prevDisabled v then v else prev deck v).
Proof.
  unfold inDeck, nextDisabled, prevDisabled, onTouchEnd, minSwipeDistance.
  intros Hv. repeat split.
  - intros [H | [H | [H | H]]]; rewrite H.
    + reflexivity.
    + now destruct (touchStart v).
    + now destruct (touchEnd v).
    + destruct (touchStart v) as [s|]; [|reflexivity].
      now rewrite Bool.orb_true_r.
  - intros s e -> -> Habs. cbv zeta. rewrite !Z.gtb_ltb.
    destruct (Z.eqb_spec s 0), (Z.eqb_spec e 0); cbn [orb]; try reflexivity.
    destruct (Z.ltb_spec 50 (s - e)), (Z.ltb_spec (s - e) (Z.opp 50));
      cbn [andb]; try reflexivity; lia.
  - intros s e -> -> Hs He Hd. cbv zeta. rewrite !Z.gtb_ltb.
    destruct (Z.eqb_spec s 0), (Z.eqb_spec e 0); try contradiction. cbn [orb].
    destruct (Z.ltb_spec 50 (s - e)), (Z.ltb_spec (s - e) (Z.opp 50)); try lia.
    cbn [andb].
    destruct (Z.eqb_spec (index v) (deckLength deck - 1)),
             (Z.ltb_spec (index v) (deckLength deck - 1));
      try reflexivity; lia.
  - intros s e -> -> Hs He Hd. cbv zeta. rewrite !Z.gtb_ltb.
    destruct (Z.eqb_spec s 0), (Z.eqb_spec e 0); try contradiction. cbn [orb].
    destruct (Z.ltb_spec 50 (s - e)), (Z.ltb_spec (s - e) (Z.opp 50)); try lia.
    cbn [andb].
    destruct (Z.eqb_spec (index v) 0), (Z.ltb_spec 0 (index v));
      try reflexivity; lia.
Qed.

Lemma swipe_moves_one_witness :
  onTouchEnd [JNull; JNull] (onTouchMove 40 (onTouchStart 200 initialView))
  = next [JNull; JNull] (onTouchMove 40 (onTouchStart 200 initialView))
  /\ onTouchEnd [JNull; JNull] (onTouchMove 200 (onTouchStart 0 initialView))
     = onTouchMove 200 (onTouchStart 0 initialView).
Proof.
  split.
  - apply (proj1 (proj2 (proj2
             (swipe_moves_one [JNull; JNull]
                (onTouchMove 40 (onTouchStart 200 initialView))
                ltac:(unfold inDeck; cbn; lia)))) 200%Z 40%Z);
      try reflexivity; try discriminate; lia.
  - apply (swipe_moves_one [JNull; JNull]
             (onTouchMove 200 (onTouchStart 0 initialView))).
    + unfold inDeck. cbn. lia.
    + right. right. left. reflexivity.
Defined.

(** ** More on the tokenizer *)

Import Text.

Section SplitJoin.

Lemma join_snoc_merge (res : list string) (a b : string) :
  join "," (res ++ [a; b]) = join "," (res ++ [a ++ "," ++ b]).
Proof.
  induction res as [|r res IH]; [reflexivity|].
  destruct res as [|r' res]; [reflexivity|].
  change (join "," ((r :: r' :: res) ++ [a; b]))
    with (r ++ "," ++ join "," ((r' :: res) ++ [a; b])).
  change (join "," ((r :: r' :: res) ++ [a ++ "," ++ b]))
    with (r ++ "," ++ join "," ((r' :: res) ++ [a ++ "," ++ b])).
  now rewrite IH.
Qed.

Lemma scan_unquoted (line : string) :
  forall res cur,
    includes line dquote = false ->
    join "," (fields (scan line res cur false))
    = join "," (res ++ [cur ++ line])
    /\ List.length (fields (scan line res cur false))
       = List.length res + 1 + countChar comma line.
Proof.
  induction line as [|c line IH]; intros res cur Hq.
  - cbn [scan fields countChar]. rewrite append_nil_r, length_app.
    cbn [List.length]. split; [reflexivity | lia].
  - apply includes_cons_false in Hq as [Hc Hq].
    rewrite scan_cons, Hc. cbn [countChar].
    destruct (Ascii.eqb c comma) eqn:Hcomma; cbn [andb negb].
    + apply Ascii.eqb_eq in Hcomma. subst c.
      destruct (IH (res ++ [cur])%list "" Hq) as [IHj IHl].
      rewrite IHj, IHl, length_app. cbn [List.length append].
      split; [|lia].
      rewrite <- app_assoc. cbn [app]. apply join_snoc_merge.
    + destruct (IH res (push_char cur c) Hq) as [IHj IHl].
      rewrite IHj, IHl, push_char_append. split; [reflexivity | lia].
Qed.

End SplitJoin.

(** X11. On a line without double quotes the tokenizer is a plain split
    on commas: joining its fields with commas gives the line back, and there
    is one field more than there are commas (so the empty line gives one
    empty field). *)
Theorem splitCSVLine_unquoted (line : string) :
  includes line dquote = false ->
  join "," (splitCSVLine line) = line
  /\ List.length (splitCSVLine line) = 1 + countChar comma line.
Proof.
  intros Hq. unfold splitCSVLine.
  destruct (scan_unquoted line [] "" Hq) as [Hj Hl].
  rewrite Hj, Hl. split; reflexivity.
Qed.

Lemma splitCSVLine_unquoted_witness :
  join "," (splitCSVLine "a,,b c,") = "a,,b c,"
  /\ List.length (splitCSVLine "a,,b c,") = 4.
Proof. apply (splitCSVLine_unquoted "a,,b c,"). reflexivity. Defined.

(** ** Trimming *)

Section Trim.

Lemma trimStart_startsClean (s : string) : startsClean (trimStart s).
Proof.
  induction s as [|c s IH]; cbn [trimStart]; [exact I|].
  destruct (isWhiteSpace c) eqn:Hc; [exact IH | exact Hc].
Qed.

Lemma trimStart_id (s : string) : startsClean s -> trimStart s = s.
Proof. destruct s as [|c s]; [reflexivity|]. cbn. now intros ->. Qed.

Lemma trimEnd_idem (s : string) : trimEnd (trimEnd s) = trimEnd s.
Proof.
  induction s as [|c s IH]; [reflexivity|].
  cbn [trimEnd]. destruct (trimEnd s) as [|k kept] eqn:Hk.
  - destruct (isWhiteSpace c) eqn:Hc; [reflexivity|].
    cbn [trimEnd]. now rewrite Hc.
  - change (trimEnd (String c (String k kept)))
      with (match trimEnd (String k kept) with
            | EmptyString => if isWhiteSpace c then EmptyString else String c EmptyString
            | kept' => String c kept'
            end).
    now rewrite IH.
Qed.

Lemma trimEnd_startsClean (s : string) : startsClean s -> startsClean (trimEnd s).
Proof.
  destruct s as [|c s]; [trivial|]. cbn [startsClean trimEnd]. intros Hc.
  destruct (trimEnd s); [now rewrite Hc | exact Hc].
Qed.

Lemma trim_startsClean (s : string) : startsClean (trim s).
Proof. apply trimEnd_startsClean, trimStart_startsClean. Qed.

Lemma trim_idem (s : string) : trim (trim s) = trim s.
Proof.
  unfold trim. rewrite (trimStart_id (trimEnd (trimStart s))).
  - apply trimEnd_idem.
  - apply trimEnd_startsClean, trimStart_startsClean.
Qed.

Lemma trim_fixed (s : string) :
  trim s = s -> startsClean s /\ trimEnd s = s.
Proof.
  intros H. assert (Hs : startsClean s) by (rewrite <- H; apply trim_startsClean).
  split; [exact Hs|]. unfold trim in H. now rewrite trimStart_id in H.
Qed.

Lemma includes_trimStart (s : string) (c : ascii) :
  includes s c = false -> includes (trimStart s) c = false.
Proof.
  induction s as [|x s IH]; [trivial|]. intros H.
  cbn [trimStart]. destruct (isWhiteSpace x); [|exact H].
  apply includes_cons_false in H as [_ H]. now apply IH.
Qed.

Lemma includes_trimEnd (s : string) (c : ascii) :
  includes s c = false -> includes (trimEnd s) c = false.
Proof.
  induction s as [|x s IH]; [trivial|]. intros H.
  apply includes_cons_false in H as [Hx H]. specialize (IH H).
  cbn [trimEnd]. destruct (trimEnd s) as [|k kept].
  - destruct (isWhiteSpace x); [reflexivity|]. cbn [includes]. now rewrite Hx.
  - cbn [includes] in *. now rewrite Hx.
Qed.

Lemma includes_trim (s : string) (c : ascii) :
  includes s c = false -> includes (trim s) c = false.
Proof. intros H. now apply includes_trimEnd, includes_trimStart. Qed.

Lemma includes_append (a b : string) (c : ascii) :
  includes (a ++ b) c = includes a c || includes b c.
Proof.
  induction a as [|x a IH]; [reflexivity|].
  cbn [append includes]. rewrite IH. apply orb_assoc.
Qed.

End Trim.

Section FieldsOfLines.

(** The tokenizer invents no character but the double quote. *)
Lemma scan_includes (c : ascii) (line : string) :
  forall res cur inQuotes,
    Ascii.eqb dquote c = false ->
    includes line c = false ->
    Forall (fun f => includes f c = false) res ->
    includes cur c = false ->
    Forall (fun f => includes f c = false) (fields (scan line res cur inQuotes)).
Proof.
  intros res cur inQuotes Hdq.
  revert res cur inQuotes.
  induction line as [| x | x x' s IHs IHx] using string_pair_ind;
    intros res cur inQuotes Hline Hres Hcur.
  - cbn [scan fields]. apply Forall_app. split; [exact Hres | now constructor].
  - assert (Hpush : forall ch, includes (String ch "") c = false ->
                               includes (push_char cur ch) c = false).
    { intros ch Hch. unfold push_char. rewrite includes_append, Hcur. exact Hch. }
    cbn [scan]. destruct (Ascii.eqb x dquote).
    + cbn [fields]. apply Forall_app. split; [exact Hres | now constructor].
    + destruct (Ascii.eqb x comma && negb inQuotes); cbn [fields].
      * apply Forall_app. split; [|now constructor].
        apply Forall_app. split; [exact Hres | now constructor].
      * apply Forall_app. split; [exact Hres|]. constructor; [|constructor].
        now apply Hpush.
  - assert (Hpush : forall ch, includes (String ch "") c = false ->
                               includes (push_char cur ch) c = false).
    { intros ch Hch. unfold push_char. rewrite includes_append, Hcur. exact Hch. }
    pose proof Hline as Hline'.
    apply includes_cons_false in Hline' as [Hx Hrest].
    pose proof Hrest as Hrest'.
    apply includes_cons_false in Hrest' as [Hx' Hs].
    rewrite scan_cons. cbv beta iota.
    destruct (Ascii.eqb x dquote).
    + destruct (inQuotes && Ascii.eqb x' dquote).
      * apply IHs; [exact Hs | exact Hres|]. apply Hpush.
        cbn [includes]. now rewrite Hdq.
      * now apply IHx.
    + destruct (Ascii.eqb x comma && negb inQuotes).
      * apply IHx; [exact Hrest | | reflexivity].
        apply Forall_app. split; [exact Hres | now constructor].
      * apply IHx; [exact Hrest | exact Hres|]. apply Hpush.
        cbn [includes]. now rewrite Hx.
Qed.

Lemma splitLines_no_LF (text : string) :
  Forall (fun piece => includes piece LF = false) (splitLines text).
Proof.
  induction text as [| c | c c' s IHs IHc] using string_pair_ind.
  - repeat constructor.
  - cbn [splitLines]. destruct (Ascii.eqb c LF) eqn:Hc; [repeat constructor|].
    destruct (Ascii.eqb c CR); repeat constructor; cbn [includes]; now rewrite Hc.
  - assert (Hkeep : Ascii.eqb c LF = false ->
              Forall (fun piece => includes piece LF = false)
                match splitLines (String c' s) with
                | piece :: pieces => String c piece :: pieces
                | [] => [String c EmptyString]
                end).
    { intros Hc. destruct (splitLines (String c' s)) as [|piece pieces].
      - repeat constructor. cbn [includes]. now rewrite Hc.
      - inversion IHc as [|? ? Hp Hps]; subst. constructor; [|exact Hps].
        cbn [includes]. now rewrite Hc. }
    change (splitLines (String c (String c' s))) with
      (if Ascii.eqb c LF then EmptyString :: splitLines (String c' s)
       else if Ascii.eqb c CR then
         if Ascii.eqb c' LF then EmptyString :: splitLines s
         else match splitLines (String c' s) with
              | piece :: pieces => String c piece :: pieces
              | [] => [String c EmptyString]
              end
       else match splitLines (String c' s) with
            | piece :: pieces => String c piece :: pieces
            | [] => [String c EmptyString]
            end).
    destruct (Ascii.eqb c LF) eqn:Hc; [now constructor|].
    destruct (Ascii.eqb c CR); [|now apply Hkeep].
    destruct (Ascii.eqb c' LF); [now constructor | now apply Hkeep].
Qed.

Lemma col_tidy (line : string) (i : nat) :
  includes line LF = false -> tidy (trim (col (splitCSVLine line) i)).
Proof.
  intros Hline. split; [apply trim_idem|]. apply includes_trim.
  unfold col, splitCSVLine.
  pose proof (scan_includes LF line [] "" false eq_refl Hline
                (Forall_nil _) eq_refl) as Hall.
  destruct (nth_in_or_default i (fields (scan line [] "" false)) "") as [Hin | ->].
  - rewrite Forall_forall in Hall. now apply Hall.
  - reflexivity.
Qed.

Lemma parseRows_tidy (rows : list string) :
  forall out,
    Forall (fun row => includes row LF = false) rows ->
    Forall (fun p => tidy (question p) /\ tidy (answer p)) out ->
    Forall (fun p => tidy (question p) /\ tidy (answer p))
           (fold_left parseRow rows out).
Proof.
  induction rows as [|row rows IH]; intros out Hrows Hout; cbn [fold_left].
  - exact Hout.
  - inversion Hrows as [|? ? Hrow Hrows']; subst.
    apply IH; [exact Hrows'|]. unfold parseRow.
    destruct (falsy row); [exact Hout|].
    destruct (negb _ || negb _); [|exact Hout].
    apply Forall_app. split; [exact Hout|]. constructor; [|constructor].
    cbn [question answer]. split; now apply col_tidy.
Qed.

End FieldsOfLines.

(** X12. The fields of every pair [parseCSV] produces are trimmed (trimming
    them again changes nothing) and hold no line feed. *)
Theorem parseCSV_fields_tidy (text : string) :
  Forall (fun p => (trim (question p) = question p
                    /\ includes (question p) LF = false)
                   /\ (trim (answer p) = answer p
                       /\ includes (answer p) LF = false))
         (parseCSV text).
Proof.
  unfold parseCSV, rowsOf.
  apply (parseRows_tidy (map trim (splitLines text)) []); [|constructor].
  pose proof (splitLines_no_LF text) as Hall.
  induction Hall as [|piece pieces Hp _ IH]; cbn [map]; constructor.
  - now apply includes_trim.
  - exact IH.
Qed.

(** ** Documents made of several parts *)

Section Documents.

Lemma splitLines_cons (c : ascii) (rest : string) :
  splitLines (String c rest)
  = if Ascii.eqb c LF then EmptyString :: splitLines rest
    else if Ascii.eqb c CR then
      match rest with
      | String c' rest' =>
          if Ascii.eqb c' LF then EmptyString :: splitLines rest'
          else match splitLines rest with
               | piece :: pieces => String c piece :: pieces
               | [] => [String c EmptyString]
               end
      | EmptyString =>
          match splitLines rest with
          | piece :: pieces => String c piece :: pieces
          | [] => [String c EmptyString]
          end
      end
    else match splitLines rest with
         | piece :: pieces => String c piece :: pieces
         | [] => [String c EmptyString]
         end.
Proof. reflexivity. Qed.

Lemma splitLines_nonempty (text : string) : splitLines text <> [].
Proof.
  destruct text as [|c rest]; [discriminate|]. rewrite splitLines_cons.
  destruct (Ascii.eqb c LF); [discriminate|].
  destruct (Ascii.eqb c CR).
  - destruct rest as [|c' rest']; [discriminate|].
    destruct (Ascii.eqb c' LF); [discriminate|].
    destruct (splitLines (String c' rest')); discriminate.
  - destruct (splitLines rest); discriminate.
Qed.

(** A text that starts with a character gives a single piece only when
    that piece is not empty. *)
Lemma splitLines_single (c : ascii) (rest piece : string) :
  splitLines (String c rest) = [piece] -> piece <> "".
Proof.
  rewrite splitLines_cons. intros H Hp. subst piece.
  destruct (Ascii.eqb c LF).
  - injection H as H. now apply splitLines_nonempty in H.
  - destruct (Ascii.eqb c CR).
    + destruct rest as [|c' rest']; [discriminate|].
      destruct (Ascii.eqb c' LF).
      * injection H as H. now apply splitLines_nonempty in H.
      * destruct (splitLines (String c' rest')); discriminate.
    + destruct (splitLines rest); discriminate.
Qed.

Lemma mapLast_cons {A} (f : A -> A) (x : A) (l : list A) :
  l <> [] -> mapLast f (x :: l) = x :: mapLast f l.
Proof. destruct l; [contradiction | reflexivity]. Qed.

Lemma chompCR_cons (c : ascii) (s : string) :
  s <> "" -> chompCR (String c s) = String c (chompCR s).
Proof. destruct s; [contradiction | reflexivity]. Qed.

(** Prepending a character to the first piece commutes with dropping the
    carriage return that ends the last piece. *)
Lemma mapLast_chompCR_keep (c : ascii) (c' : ascii) (s : string) (tail : list string) :
  Ascii.eqb c LF = false ->
  match (mapLast chompCR (splitLines (String c' s)) ++ tail)%list with
  | piece :: pieces => String c piece :: pieces
  | [] => [String c EmptyString]
  end
  = (mapLast chompCR
       match splitLines (String c' s) with
       | piece :: pieces => String c piece :: pieces
       | [] => [String c EmptyString]
       end ++ tail)%list.
Proof.
  intros Hc.
  destruct (splitLines (String c' s)) as [|p ps] eqn:E;
    [now apply splitLines_nonempty in E|].
  destruct ps as [|p' ps].
  - apply splitLines_single in E. cbn [mapLast app].
    now rewrite chompCR_cons.
  - rewrite !mapLast_cons by discriminate. reflexivity.
Qed.

Lemma splitLines_app_LF (a b : string) :
  splitLines (a ++ String LF b)
  = (mapLast chompCR (splitLines a) ++ splitLines b)%list.
Proof.
  induction a as [| c | c c' s IHs IHc] using string_pair_ind.
  - reflexivity.
  - cbn [append]. rewrite splitLines_cons. cbv beta iota.
    rewrite (Ascii.eqb_refl LF).
    change (splitLines (String LF b)) with (EmptyString :: splitLines b).
    destruct (Ascii.eqb c LF) eqn:Hc.
    + apply Ascii.eqb_eq in Hc. subst c. reflexivity.
    + destruct (Ascii.eqb c CR) eqn:Hcr.
      * apply Ascii.eqb_eq in Hcr. subst c. reflexivity.
      * cbn [splitLines]. rewrite Hc, Hcr. cbn [mapLast chompCR app].
        now rewrite Hcr.
  - change ((String c (String c' s)) ++ String LF b)
      with (String c (String c' (s ++ String LF b))).
    rewrite (splitLines_cons c (String c' (s ++ String LF b))).
    rewrite (splitLines_cons c (String c' s)). cbv beta iota.
    change (String c' (s ++ String LF b)) with (String c' s ++ String LF b).
    rewrite IHc, IHs.
    destruct (Ascii.eqb c LF) eqn:Hc.
    + rewrite mapLast_cons by apply splitLines_nonempty. reflexivity.
    + destruct (Ascii.eqb c CR).
      * destruct (Ascii.eqb c' LF).
        -- rewrite mapLast_cons by apply splitLines_nonempty. reflexivity.
        -- now apply mapLast_chompCR_keep.
      * now apply mapLast_chompCR_keep.
Qed.

Lemma splitLines_app_CRLF (a b : string) :
  splitLines (a ++ String CR (String LF b))
  = (splitLines a ++ splitLines b)%list.
Proof.
  induction a as [| c | c c' s IHs IHc] using string_pair_ind.
  - reflexivity.
  - cbn [append]. rewrite splitLines_cons. cbv beta iota.
    change (Ascii.eqb CR LF) with false. cbv iota.
    change (splitLines (String CR (String LF b))) with (EmptyString :: splitLines b).
    cbn [splitLines].
    destruct (Ascii.eqb c LF); [reflexivity|].
    destruct (Ascii.eqb c CR); reflexivity.
  - change ((String c (String c' s)) ++ String CR (String LF b))
      with (String c (String c' (s ++ String CR (String LF b)))).
    rewrite (splitLines_cons c (String c' (s ++ String CR (String LF b)))).
    rewrite (splitLines_cons c (String c' s)). cbv beta iota.
    change (String c' (s ++ String CR (String LF b)))
      with (String c' s ++ String CR (String LF b)).
    rewrite IHc, IHs.
    assert (Hkeep :
      match (splitLines (String c' s) ++ splitLines b)%list with
      | piece :: pieces => String c piece :: pieces
      | [] => [String c EmptyString]
      end
      = (match splitLines (String c' s) with
         | piece :: pieces => String c piece :: pieces
         | [] => [String c EmptyString]
         end ++ splitLines b)%list).
    { destruct (splitLines (String c' s)) eqn:E;
        [now apply splitLines_nonempty in E | reflexivity]. }
    destruct (Ascii.eqb c LF); [reflexivity|].
    destruct (Ascii.eqb c CR); [|exact Hkeep].
    destruct (Ascii.eqb c' LF); [reflexivity | exact Hkeep].
Qed.

Lemma trimEnd_chompCR (s : string) : trimEnd (chompCR s) = trimEnd s.
Proof.
  induction s as [|c s IH]; [reflexivity|].
  destruct s as [|c' s'].
  - cbn [chompCR]. destruct (Ascii.eqb c CR) eqn:Hc; [|reflexivity].
    apply Ascii.eqb_eq in Hc. subst c. reflexivity.
  - rewrite chompCR_cons by discriminate.
    change (trimEnd (String c (chompCR (String c' s'))))
      with (match trimEnd (chompCR (String c' s')) with
            | EmptyString => if isWhiteSpace c then EmptyString else String c EmptyString
            | kept => String c kept
            end).
    now rewrite IH.
Qed.

Lemma trimStart_chompCR (s : string) : trimStart (chompCR s) = chompCR (trimStart s).
Proof.
  induction s as [|c s IH]; [reflexivity|].
  destruct s as [|c' s'].
  - cbn [chompCR trimStart]. destruct (Ascii.eqb c CR) eqn:Hc.
    + apply Ascii.eqb_eq in Hc. subst c. reflexivity.
    + cbn [trimStart]. destruct (isWhiteSpace c); [reflexivity|].
      cbn [chompCR]. now rewrite Hc.
  - rewrite chompCR_cons by discriminate. cbn [trimStart].
    destruct (isWhiteSpace c); [exact IH | reflexivity].
Qed.

Lemma trim_chompCR (s : string) : trim (chompCR s) = trim s.
Proof. unfold trim. now rewrite trimStart_chompCR, trimEnd_chompCR. Qed.

Lemma map_trim_mapLast (pieces : list string) :
  map trim (mapLast chompCR pieces) = map trim pieces.
Proof.
  induction pieces as [|p pieces IH]; [reflexivity|].
  destruct pieces as [|p' pieces].
  - cbn [mapLast map]. now rewrite trim_chompCR.
  - rewrite mapLast_cons by discriminate. cbn [map] in *. now rewrite IH.
Qed.

Lemma parseRow_out (out : list QA) (row : string) :
  parseRow out row = (out ++ parseRow [] row)%list.
Proof.
  unfold parseRow. destruct (falsy row); [now rewrite app_nil_r|].
  destruct (negb _ || negb _); [reflexivity | now rewrite app_nil_r].
Qed.

Lemma parseRows_out (rows : list string) :
  forall out,
    fold_left parseRow rows out = (out ++ fold_left parseRow rows [])%list.
Proof.
  induction rows as [|row rows IH]; intros out; cbn [fold_left].
  - now rewrite app_nil_r.
  - rewrite IH, (IH (parseRow [] row)), (parseRow_out out row).
    now rewrite app_assoc.
Qed.

Lemma parseRows_app (rows rows' : list string) :
  fold_left parseRow (rows ++ rows') []
  = (fold_left parseRow rows [] ++ fold_left parseRow rows' [])%list.
Proof. rewrite fold_left_app. apply parseRows_out. Qed.

End Documents.

(** X13. Parsing two documents put one after the other, with a line feed
    or with a carriage return and a line feed between them, gives the pairs
    of the first followed by the pairs of the second. *)
Theorem parseCSV_concat (a b : string) :
  parseCSV (a ++ String LF b) = (parseCSV a ++ parseCSV b)%list
  /\ parseCSV (a ++ String CR (String LF b)) = (parseCSV a ++ parseCSV b)%list.
Proof.
  unfold parseCSV, rowsOf. split.
  - rewrite splitLines_app_LF, map_app, map_trim_mapLast. apply parseRows_app.
  - rewrite splitLines_app_CRLF, map_app. apply parseRows_app.
Qed.

(** ** Reading an exported deck back *)

Import Reimport.

Section ExportImport.

Lemma collectRows_entries (entries : list Entry) :
  exists rows,
    collectRows (map entryJs entries) = Some rows
    /\ map (fun r => join "," (map printField r)) rows = map lineOf entries.
Proof.
  induction entries as [|e entries (rows & Hrows & Hlines)].
  - exists []. split; reflexivity.
  - cbn [map collectRows]. rewrite Hrows.
    destruct e as [title id | prompt response id].
    + eexists. split; [reflexivity|]. cbn [app map]. now rewrite Hlines.
    + eexists. split; [reflexivity|]. cbn [app map]. now rewrite Hlines.
Qed.

Lemma exportAllAsCSV_entries (entries : list Entry) :
  exportAllAsCSV (map entryJs entries)
  = Some (join (String LF "") (map lineOf entries)).
Proof.
  unfold exportAllAsCSV, csvOfRows.
  destruct (collectRows_entries entries) as (rows & -> & ->). reflexivity.
Qed.

Lemma includes_doubleQuotes (s : string) (c : ascii) :
  Ascii.eqb dquote c = false ->
  includes s c = false -> includes (doubleQuotes s) c = false.
Proof.
  intros Hdq. induction s as [|x s IH]; [trivial|]. intros H.
  apply includes_cons_false in H as [Hx H]. specialize (IH H).
  cbn [doubleQuotes]. destruct (Ascii.eqb x dquote); cbn [includes];
    rewrite ?Hdq, ?Hx, IH; reflexivity.
Qed.

Lemma includes_csvField (f : string) (c : ascii) :
  Ascii.eqb dquote c = false ->
  includes f c = false -> includes (csvField f) c = false.
Proof.
  intros Hdq Hf. unfold csvField. destruct (needsQuoting f); [|exact Hf].
  cbn [includes]. rewrite Hdq, includes_append, includes_doubleQuotes by assumption.
  cbn [includes orb]. now rewrite Hdq.
Qed.

Lemma trimEnd_append (x y : string) :
  trimEnd y = y -> y <> "" -> trimEnd (x ++ y) = x ++ y.
Proof.
  intros Hy Hne. induction x as [|c x IH]; [exact Hy|].
  cbn [append trimEnd]. rewrite IH.
  destruct (x ++ y) eqn:E; [|reflexivity].
  destruct x; [contradiction | discriminate].
Qed.

Lemma csvField_empty (f : string) : csvField f = "" -> f = "".
Proof. unfold csvField. destruct (needsQuoting f); [discriminate | trivial]. Qed.

Lemma csvField_trimEnd (f : string) :
  trimEnd f = f -> trimEnd (csvField f) = csvField f.
Proof.
  intros Hf. unfold csvField. destruct (needsQuoting f); [|exact Hf].
  change (String dquote (doubleQuotes f ++ String dquote ""))
    with (String dquote (doubleQuotes f) ++ String dquote "").
  apply trimEnd_append; [reflexivity | discriminate].
Qed.

Lemma csvField_startsClean (f rest : string) :
  startsClean f -> startsClean rest -> startsClean (csvField f ++ rest).
Proof.
  intros Hf Hrest. unfold csvField. destruct (needsQuoting f); [reflexivity|].
  destruct f; [exact Hrest | exact Hf].
Qed.

Lemma trim_id (s : string) : startsClean s -> trimEnd s = s -> trim s = s.
Proof. intros Hs He. unfold trim. now rewrite trimStart_id. Qed.

Lemma lineOf_trim (e : Entry) : exportable e -> trim (lineOf e) = lineOf e.
Proof.
  destruct e as [title id | prompt response id]; cbn [exportable lineOf].
  - intros [Ht _]. apply trim_fixed in Ht as [Hs He].
    apply trim_id; [|now apply csvField_trimEnd].
    rewrite <- (append_nil_r (csvField _)). now apply csvField_startsClean.
  - intros ([Hp _] & [Hr _] & _).
    apply trim_fixed in Hp as [Hps Hpe]. apply trim_fixed in Hr as [Hrs Hre].
    cbn [join]. apply trim_id.
    + now apply csvField_startsClean.
    + apply trimEnd_append; [|discriminate].
      destruct (csvField response) as [|c s] eqn:E; [reflexivity|].
      change ("," ++ String c s) with (String comma "" ++ String c s).
      apply trimEnd_append; [|discriminate].
      rewrite <- E. now apply csvField_trimEnd.
Qed.

Lemma lineOf_no_LF (e : Entry) : exportable e -> includes (lineOf e) LF = false.
Proof.
  destruct e as [title id | prompt response id]; cbn [exportable lineOf].
  - intros [_ Ht]. now apply includes_csvField.
  - intros ([_ Hp] & [_ Hr] & _). cbn [join].
    rewrite !includes_append, !includes_csvField by trivial. reflexivity.
Qed.

Lemma lineOf_not_empty (e : Entry) : falsy (lineOf e) = false.
Proof.
  destruct e as [title id | prompt response id]; cbn [lineOf].
  - unfold csvField. now destruct (needsQuoting _).
  - cbn [join]. unfold csvField at 1.
    destruct (needsQuoting prompt); [reflexivity|]. now destruct prompt.
Qed.

Lemma splitCSVLine_lineOf (e : Entry) :
  splitCSVLine (lineOf e)
  = match e with
    | Separator title _ => [("#" ++ title)%string]
    | Card prompt response _ => [prompt; response]
    end.
Proof.
  unfold splitCSVLine. destruct e as [title id | prompt response id]; cbn [lineOf].
  - rewrite <- (append_nil_r (csvField _)).
    now rewrite scan_csvField.
  - cbn [join]. rewrite scan_csvField by reflexivity.
    change (scan ("," ++ csvField response) [] prompt false)
      with (scan (csvField response) [prompt] "" false).
    rewrite <- (append_nil_r (csvField response)).
    now rewrite scan_csvField.
Qed.

Lemma parseRow_lineOf (e : Entry) (out : list QA) :
  exportable e -> parseRow out (lineOf e) = (out ++ [readBack e])%list.
Proof.
  intros He. unfold parseRow.
  rewrite lineOf_not_empty, splitCSVLine_lineOf.
  destruct e as [title id | prompt response id];
    cbn [exportable readBack col nth] in *.
  - destruct He as [Ht _]. rewrite Ht. reflexivity.
  - destruct He as ([Hp _] & [Hr _] & Hne). rewrite Hp, Hr.
    destruct prompt; [|reflexivity]. destruct response; [|reflexivity].
    now destruct Hne.
Qed.

Lemma splitLines_one_line (line : string) :
  includes line LF = false -> splitLines line = [line].
Proof.
  induction line as [| c | c c' s IHs IHc] using string_pair_ind; intros H.
  - reflexivity.
  - apply includes_cons_false in H as [Hc _].
    cbn [splitLines]. rewrite Hc. now destruct (Ascii.eqb c CR).
  - pose proof H as H'. apply includes_cons_false in H' as [Hc H'].
    pose proof H' as H''. apply includes_cons_false in H'' as [Hc' _].
    rewrite splitLines_cons. cbv beta iota. rewrite Hc, Hc', (IHc H').
    now destruct (Ascii.eqb c CR).
Qed.

Lemma rowsOf_app_LF (a b : string) :
  rowsOf (a ++ String LF b) = (rowsOf a ++ rowsOf b)%list.
Proof.
  unfold rowsOf. now rewrite splitLines_app_LF, map_app, map_trim_mapLast.
Qed.

Lemma rowsOf_lines (e : Entry) (entries : list Entry) :
  Forall exportable (e :: entries) ->
  rowsOf (join (String LF "") (map lineOf (e :: entries)))
  = map lineOf (e :: entries).
Proof.
  revert e. induction entries as [|e' entries IH]; intros e Hall;
    inversion Hall as [|? ? He Hrest]; subst.
  - cbn [map join]. unfold rowsOf.
    rewrite splitLines_one_line by now apply lineOf_no_LF.
    cbn [map]. now rewrite lineOf_trim.
  - change (join (String LF "") (map lineOf (e :: e' :: entries)))
      with (lineOf e ++ String LF (join (String LF "") (map lineOf (e' :: entries)))).
    rewrite rowsOf_app_LF, (IH e' Hrest). unfold rowsOf.
    rewrite splitLines_one_line by now apply lineOf_no_LF.
    cbn [map app]. now rewrite lineOf_trim.
Qed.

Lemma parseRows_lines (entries : list Entry) :
  forall out,
    Forall exportable entries ->
    fold_left parseRow (map lineOf entries) out
    = (out ++ map readBack entries)%list.
Proof.
  induction entries as [|e entries IH]; intros out Hall; cbn [map fold_left].
  - now rewrite app_nil_r.
  - inversion Hall as [|? ? He Hrest]; subst.
    rewrite parseRow_lineOf, IH by assumption. now rewrite <- app_assoc.
Qed.

Lemma parseCSV_lines (entries : list Entry) :
  Forall exportable entries ->
  parseCSV (join (String LF "") (map lineOf entries)) = map readBack entries.
Proof.
  intros Hall. unfold parseCSV. destruct entries as [|e entries]; [reflexivity|].
  rewrite rowsOf_lines by assumption. now rewrite parseRows_lines.
Qed.

Lemma cardsFrom_entries (name : string) (k : Clock) (parsed : list QA) :
  forall idx,
    cardsFrom name k idx parsed = map entryJs (cardEntries name k idx parsed)
    /\ map readBack (cardEntries name k idx parsed) = parsed.
Proof.
  induction parsed as [|p parsed IH]; intros idx; [split; reflexivity|].
  destruct (IH (S idx)) as [IHc IHr].
  cbn [cardsFrom cardEntries map readBack entryJs]. rewrite IHc, IHr.
  now destruct p.
Qed.

Lemma cardEntries_exportable (name : string) (k : Clock) (parsed : list QA) :
  forall idx,
    Forall (fun p => tidy (question p) /\ tidy (answer p)) parsed ->
    Forall hasContent parsed ->
    Forall exportable (cardEntries name k idx parsed).
Proof.
  induction parsed as [|p parsed IH]; intros idx Ht Hc; [constructor|].
  inversion Ht as [|? ? [Hq Ha] Ht']; inversion Hc as [|? ? Hp Hc']; subst.
  cbn [cardEntries]. constructor; [|now apply IH].
  cbn [exportable]. repeat split; try apply Hq; try apply Ha. exact Hp.
Qed.

End ExportImport.

(** X14. A deck of well-formed entries whose fields are trimmed and free
    of line feeds (and whose cards are not empty on both sides) exports
    without error, and parsing the exported text gives one pair for each
    entry, in order: the two sides of each card, and for each separator the
    pair of its title after a hash sign with an empty answer. *)
Theorem export_then_parse (entries : list Entry) :
  Forall exportable entries ->
  exists text,
    exportAllAsCSV (map entryJs entries) = Some text
    /\ parseCSV text = map readBack entries.
Proof.
  intros Hall. exists (join (String LF "") (map lineOf entries)).
  split; [apply exportAllAsCSV_entries | now apply parseCSV_lines].
Qed.

Lemma export_then_parse_witness :
  exists text,
    exportAllAsCSV [separator "a.csv" "s"; card "x, y" "z" "c"] = Some text
    /\ parseCSV text = [mkQA "#a.csv" ""; mkQA "x, y" "z"].
Proof.
  apply (export_then_parse [Separator "a.csv" "s"; Card "x, y" "z" "c"]).
  repeat constructor; discriminate.
Defined.

(** X15. Exporting the cards made from a parsed document and parsing the
    export gives the pairs of the document again: whatever the text, its
    parsed content survives an export and a new import unchanged. *)
Theorem parse_export_parse (text name : string) (k : Clock) :
  exists exported,
    exportAllAsCSV (cardsFrom name k 0 (parseCSV text)) = Some exported
    /\ parseCSV exported = parseCSV text.
Proof.
  destruct (cardsFrom_entries name k (parseCSV text) 0) as [Hjs Hback].
  assert (Hall : Forall exportable (cardEntries name k 0 (parseCSV text))).
  { apply cardEntries_exportable.
    - unfold parseCSV, rowsOf. apply parseRows_tidy; [|constructor].
      pose proof (splitLines_no_LF text) as Hlf.
      induction Hlf as [|piece pieces Hp _ IH]; cbn [map]; constructor;
        [now apply includes_trim | exact IH].
    - unfold parseCSV. apply parseRows_content. constructor. }
  rewrite Hjs, exportAllAsCSV_entries. eexists. split; [reflexivity|].
  rewrite parseCSV_lines by assumption. exact Hback.
Qed.

(** ** Columns after the second *)

Section ExtraColumns.

Lemma scan_app_comma (line : string) :
  forall rest res cur inQuotes,
    scan (line ++ String comma rest) res cur inQuotes
    = let '(res', cur', inQuotes') := scan line res cur inQuotes in
      scan (String comma rest) res' cur' inQuotes'.
Proof.
  induction line as [| c | c c' s IHs IHc] using string_pair_ind;
    intros rest res cur inQuotes.
  - reflexivity.
  - cbn [append]. rewrite (scan_cons c (String comma rest)). cbv beta iota.
    change (Ascii.eqb comma dquote) with false. rewrite andb_false_r.
    cbn [scan]. destruct (Ascii.eqb c dquote); [reflexivity|].
    destruct (Ascii.eqb c comma && negb inQuotes); reflexivity.
  - change ((String c (String c' s)) ++ String comma rest)
      with (String c (String c' (s ++ String comma rest))).
    rewrite (scan_cons c (String c' (s ++ String comma rest))).
    rewrite (scan_cons c (String c' s)). cbv beta iota.
    change (String c' (s ++ String comma rest))
      with (String c' s ++ String comma rest).
    destruct (Ascii.eqb c dquote).
    + destruct (inQuotes && Ascii.eqb c' dquote); [apply IHs | apply IHc].
    + destruct (Ascii.eqb c comma && negb inQuotes); apply IHc.
Qed.

(** Fields that are complete stay as they are. *)
Lemma scan_extends (line : string) :
  forall res cur inQuotes,
    exists more, fields (scan line res cur inQuotes) = (res ++ more)%list.
Proof.
  induction line as [| c | c c' s IHs IHc] using string_pair_ind;
    intros res cur inQuotes.
  - exists [cur]. reflexivity.
  - cbn [scan]. destruct (Ascii.eqb c dquote); [eexists; reflexivity|].
    destruct (Ascii.eqb c comma && negb inQuotes); cbn [fields].
    + exists [cur; ""]. now rewrite <- app_assoc.
    + eexists. reflexivity.
  - rewrite scan_cons. cbv beta iota.
    destruct (Ascii.eqb c dquote).
    + destruct (inQuotes && Ascii.eqb c' dquote); [apply IHs | apply IHc].
    + destruct (Ascii.eqb c comma && negb inQuotes); [|apply IHc].
      destruct (IHc (res ++ [cur])%list "" inQuotes) as [more Hmore].
      exists (cur :: more). rewrite Hmore. now rewrite <- app_assoc.
Qed.

Lemma splitCSVLine_app_comma (line rest : string) :
  endsInQuotes line = false ->
  exists more,
    splitCSVLine (line ++ String comma rest) = (splitCSVLine line ++ more)%list.
Proof.
  unfold endsInQuotes, splitCSVLine. intros Hq. rewrite scan_app_comma.
  destruct (scan line [] "" false) as [[res cur] inQuotes].
  cbn [snd] in Hq. subst inQuotes. cbn [scan fields].
  change (Ascii.eqb comma dquote) with false. rewrite Ascii.eqb_refl.
  cbn [andb negb]. apply scan_extends.
Qed.

End ExtraColumns.

(** X16. What follows the second column is ignored: when a line whose
    quotes are closed has two fields or more, adding a comma and any text
    after it leaves its fields as they are and produces the same row. *)
Theorem extra_columns_ignored (line rest : string) (out : list QA) :
  endsInQuotes line = false ->
  2 <= List.length (splitCSVLine line) ->
  (forall i, i < List.length (splitCSVLine line) ->
     col (splitCSVLine (line ++ String comma rest)) i = col (splitCSVLine line) i)
  /\ parseRow out (line ++ String comma rest) = parseRow out line.
Proof.
  intros Hq Hlen.
  destruct (splitCSVLine_app_comma line rest Hq) as [more Hmore].
  assert (Hcol : forall i, i < List.length (splitCSVLine line) ->
            col (splitCSVLine (line ++ String comma rest)) i
            = col (splitCSVLine line) i).
  { intros i Hi. unfold col. rewrite Hmore. now apply app_nth1. }
  split; [exact Hcol|].
  unfold parseRow. rewrite !Hcol by lia.
  destruct line as [|c line]; [cbn in Hlen; lia | reflexivity].
Qed.

Lemma extra_columns_ignored_witness :
  parseRow [] ("q,a" ++ String comma "note, more") = parseRow [] "q,a".
Proof.
  apply (extra_columns_ignored "q,a" "note, more" []); [reflexivity | cbn; lia].
Defined.

(** ** Identifiers inside one block *)

Section BlockIds.

Lemma string_of_uint_no_dash (d : Decimal.uint) :
  includes (NilEmpty.string_of_uint d) "-" = false.
Proof. induction d; cbn [NilEmpty.string_of_uint includes]; trivial. Qed.

Lemma showN_no_dash (n : N) : includes (showN n) "-" = false.
Proof. apply string_of_uint_no_dash. Qed.

Lemma showN_inj (a b : N) : showN a = showN b -> a = b.
Proof.
  unfold showN. intros H. apply DecimalN.Unsigned.to_uint_inj.
  apply (f_equal NilEmpty.uint_of_string) in H.
  rewrite !NilEmpty.usu in H. now injection H.
Qed.

Lemma append_cancel (a x y : string) : a ++ x = a ++ y -> x = y.
Proof.
  induction a as [|c a IH]; [trivial|]. cbn [append]. intros [= H]. auto.
Qed.

Lemma cut_at_dash (a b x y : string) :
  includes a "-" = false -> includes b "-" = false ->
  a ++ String "-" x = b ++ String "-" y -> a = b.
Proof.
  revert b. induction a as [|c a IH]; intros b Ha Hb H.
  - destruct b as [|c' b]; [reflexivity|]. cbn [append] in H.
    injection H as Hc _. subst c'. cbn [includes] in Hb. discriminate.
  - destruct b as [|c' b]; cbn [append] in H.
    + injection H as Hc _. subst c. cbn [includes] in Ha. discriminate.
    + injection H as Hc H. subst c'.
      apply includes_cons_false in Ha as [_ Ha].
      apply includes_cons_false in Hb as [_ Hb].
      f_equal. now apply IH.
Qed.

Lemma cardId_inj (name : string) (k : Clock) (i j : nat) :
  cardId name i k = cardId name j k -> i = j.
Proof.
  unfold cardId. intros H. apply append_cancel in H.
  cbn [append] in H. injection H as H.
  apply cut_at_dash in H; try apply showN_no_dash.
  apply showN_inj in H. lia.
Qed.

Lemma NoDup_map_injective {A B : Type} (f : A -> B) (l : list A) :
  (forall x y, f x = f y -> x = y) -> NoDup l -> NoDup (map f l).
Proof.
  intros Hinj. induction 1 as [|x l Hx _ IH]; cbn [map]; constructor.
  - intros Hin. apply in_map_iff in Hin as (y & Hy & Hin).
    apply Hinj in Hy. now subst y.
  - exact IH.
Qed.

Lemma ids_cardsFrom (name : string) (k : Clock) (parsed : list QA) :
  forall idx,
    ids (cardsFrom name k idx parsed)
    = map (fun i => Some (JStr (cardId name i k))) (seq idx (List.length parsed)).
Proof.
  induction parsed as [|p parsed IH]; intros idx; [reflexivity|].
  cbn [cardsFrom List.length seq map]. unfold ids in *. cbn [map].
  now rewrite IH.
Qed.

End BlockIds.

(** X17. Inside one load every card gets an id, the text made of the
    source name, the index of the card and the clock reading, and these ids
    are pairwise distinct whatever the clock reads, because the index is
    part of the id.  Two cards can share an id only when they come from two
    different loads. *)
Theorem block_card_ids_distinct (name : string) (k : Clock) (parsed : list QA) :
  ids (cardsFrom name k 0 parsed)
  = map (fun i => Some (JStr (name ++ "-" ++ showN (N.of_nat i) ++ "-"
                                   ++ showN (cardNow k i))%string))
        (seq 0 (List.length parsed))
  /\ NoDup (ids (cardsFrom name k 0 parsed)).
Proof.
  split; [apply ids_cardsFrom|].
  rewrite ids_cardsFrom.
  apply NoDup_map_injective; [|apply seq_NoDup].
  intros i j [= H]. now apply cardId_inj in H.
Qed.

(** ** The name of a URL *)

Section UrlNameFacts.

Lemma splitSlash_pieces (url : string) :
  Forall (fun piece => includes piece "/" = false) (splitSlash url).
Proof.
  induction url as [|c url IH]; [repeat constructor|].
  cbn [splitSlash]. destruct (Ascii.eqb c "/") eqn:Hc; [now constructor|].
  destruct (splitSlash url) as [|piece pieces].
  - repeat constructor. cbn [includes]. now rewrite Hc.
  - inversion IH as [|? ? Hp Hps]; subst. constructor; [|exact Hps].
    cbn [includes]. now rewrite Hc.
Qed.

Lemma last_splitSlash_no_slash (url : string) :
  includes (last (splitSlash url) "") "/" = false.
Proof.
  pose proof (splitSlash_pieces url) as Hall.
  induction Hall as [|piece pieces Hp Hps IH]; [reflexivity|].
  destruct pieces; [exact Hp | exact IH].
Qed.

End UrlNameFacts.

(** X18. The title given to a URL load is empty only for the empty URL,
    and it holds a slash only when it is the whole URL (a URL that ends
    with a slash). *)
Theorem urlName_shape (url : string) :
  (urlName url = "" <-> url = "")
  /\ (includes (urlName url) "/" = true -> urlName url = url).
Proof.
  pose proof (last_splitSlash_no_slash url) as Hlast.
  unfold urlName, orElse.
  destruct (last (splitSlash url) "") as [|c piece] eqn:E; cbn [falsy].
  - split; [|reflexivity]. split; [trivial|]. intros ->. reflexivity.
  - split.
    + split; [discriminate|]. intros ->. discriminate.
    + intros H. rewrite Hlast in H. discriminate.
Qed.

(** ** The shape of reachable decks, and restarts *)

Import Shape.

Section DeckShape.

Lemma cardEntries_content (name : string) (k : Clock) (parsed : list QA) :
  forall idx,
    Forall hasContent parsed ->
    Forall cardHasContent (cardEntries name k idx parsed).
Proof.
  induction parsed as [|p parsed IH]; intros idx Hc; [constructor|].
  inversion Hc as [|? ? Hp Hc']; subst.
  cbn [cardEntries]. constructor; [exact Hp | now apply IH].
Qed.

Lemma wellFormed_nil : wellFormedDeck [].
Proof. exists []. repeat split. constructor. Qed.

Lemma wellFormed_appendBlock (name text : string) (k : Clock) (deck : list jsval) :
  wellFormedDeck deck ->
  wellFormedDeck (appendBlock name (parseCSV text) k deck).
Proof.
  intros (entries & -> & Hcontent & Hfirst).
  destruct (cardsFrom_entries name k (parseCSV text) 0) as [Hjs _].
  exists (entries ++ Separator name (sepId k)
                     :: cardEntries name k 0 (parseCSV text))%list.
  unfold appendBlock, block. rewrite Hjs, map_app. cbn [map entryJs].
  repeat split.
  - apply Forall_app. split; [exact Hcontent|]. constructor; [exact I|].
    apply cardEntries_content. unfold parseCSV. apply parseRows_content.
    constructor.
  - destruct entries as [|[|] entries]; trivial.
Qed.

Lemma act_wellFormed (st : State) (a : Action) :
  wellFormedDeck (cards st) -> wellFormedDeck (cards (act st a)).
Proof.
  intros Hst. destruct a as [ev | w url net k | w confirmed | id]; cbn [act].
  - unfold complete, onload, setCards. rewrite saveEffect_cards.
    cbn [cards withCards]. now apply wellFormed_appendBlock.
  - unfold loadFromUrl. destruct net as [m | ok [text | m]]; try exact Hst.
    + destruct ok; cbn [negb]; [|exact Hst].
      unfold setCards. rewrite saveEffect_cards. cbn [cards withCards].
      now apply wellFormed_appendBlock.
    + destruct ok; exact Hst.
  - unfold clearAll. destruct confirmed; cbn [negb]; [|exact Hst].
    rewrite saveEffect_cards. apply wellFormed_nil.
  - unfold toggleFlip. destruct (existsb _ _); exact Hst.
Qed.

Lemma actions_wellFormed (actions : list Action) :
  forall st,
    wellFormedDeck (cards st) -> wellFormedDeck (cards (fold_left act actions st)).
Proof.
  induction actions as [|a actions IH]; intros st Hst; cbn [fold_left].
  - exact Hst.
  - apply IH. now apply act_wellFormed.
Qed.

Lemma mount_nothing_stored (w : bool) (stored : Storage) :
  getItem STORAGE_KEY stored = None -> cards (mount w stored) = [].
Proof.
  intros Hnone. unfold mount, loadEffect, initialState. cbn [storage].
  rewrite Hnone. apply saveEffect_cards.
Qed.

Lemma mount_adopts (w : bool) (stored : Storage) (saved : string)
  (x : jsval) (items : list jsval) :
  getItem STORAGE_KEY stored = Some saved ->
  JSON_parse saved = Some (JArr (x :: items)) ->
  cards (mount w stored) = x :: items.
Proof.
  intros Hstored Hparse. unfold mount, loadEffect, initialState.
  cbn [storage]. rewrite Hstored.
  destruct saved as [|c saved]; [discriminate|]. cbn [falsy]. rewrite Hparse.
  cbn [List.length Nat.ltb Nat.leb]. unfold setCards.
  now rewrite saveEffect_cards.
Qed.

End DeckShape.

(** X2. In a process that starts with nothing stored, while every write
    goes through, the stored item follows the deck: after any sequence of
    actions the deck is made of separator and card objects and the item
    under [STORAGE_KEY] is the JSON text of that deck when it is not empty
    and is absent when it is. *)
Theorem session_synced (stored : Storage) (actions : list Action) :
  getItem STORAGE_KEY stored = None ->
  forallb writesOk actions = true ->
  exists entries,
    cards (session true stored actions) = map entryJs entries
    /\ getItem STORAGE_KEY (storage (session true stored actions))
       = match entries with
         | [] => None
         | _ :: _ => Some (JSON_stringify (JArr (map entryJs entries)))
         end.
Proof.
  intros Hnone Hall. unfold session.
  pose proof (actions_synced actions (mount true stored) Hall
                (mount_synced stored)) as Hsync.
  destruct (actions_wellFormed actions (mount true stored))
    as (entries & Hdeck & _).
  { rewrite mount_nothing_stored by assumption. apply wellFormed_nil. }
  exists entries. split; [exact Hdeck|].
  unfold synced in Hsync. rewrite Hsync, Hdeck.
  now destruct entries.
Qed.

Lemma session_synced_witness :
  exists entries,
    cards (session true emptyStorage
       [FileLoaded (mkCompletion (mkFile "a.csv" "Q,A")
                      (mkClock 5 "0.5" (fun _ => 5%N)) true);
        Cleared true true;
        FileLoaded (mkCompletion (mkFile "b.csv" "R,S")
                      (mkClock 7 "0.25" (fun _ => 7%N)) true)])
    = map entryJs entries
    /\ entries = [Separator "b.csv" "sep-7-0.25"; Card "R" "S" "b.csv-0-7"]
    /\ getItem STORAGE_KEY
         (storage (session true emptyStorage
            [FileLoaded (mkCompletion (mkFile "a.csv" "Q,A")
                           (mkClock 5 "0.5" (fun _ => 5%N)) true);
             Cleared true true;
             FileLoaded (mkCompletion (mkFile "b.csv" "R,S")
                           (mkClock 7 "0.25" (fun _ => 7%N)) true)]))
       = Some (JSON_stringify (JArr (map entryJs entries))).
Proof.
  destruct (session_synced emptyStorage
              [FileLoaded (mkCompletion (mkFile "a.csv" "Q,A")
                             (mkClock 5 "0.5" (fun _ => 5%N)) true);
               Cleared true true;
               FileLoaded (mkCompletion (mkFile "b.csv" "R,S")
                             (mkClock 7 "0.25" (fun _ => 7%N)) true)]
              eq_refl eq_refl) as (entries & Hdeck & Hitem).
  exists entries.
  assert (Hentries : entries
                     = [Separator "b.csv" "sep-7-0.25"; Card "R" "S" "b.csv-0-7"]).
  { vm_compute in Hdeck.
    destruct entries as [|[t1 i1 | p1 r1 i1] [|[t2 i2 | p2 r2 i2] [|e3 rest]]];
      try discriminate Hdeck.
    now injection Hdeck as <- <- <- <- <-. }
  split; [exact Hdeck|]. split; [exact Hentries|].
  rewrite Hitem. now rewrite Hentries.
Defined.

(** X19. In a process that starts with nothing stored, every deck that can
    be reached is made of separator and card objects only, no card is empty
    on both sides, a card is never the first entry, and the export of the
    deck never fails. *)
Theorem reachable_deck_shape (w : bool) (stored : Storage)
  (actions : list Action) :
  getItem STORAGE_KEY stored = None ->
  exists entries,
    cards (session w stored actions) = map entryJs entries
    /\ Forall cardHasContent entries
    /\ startsWithSeparator entries
    /\ exportAllAsCSV (cards (session w stored actions))
       = Some (join (String LF "") (map lineOf entries)).
Proof.
  intros Hnone. unfold session.
  destruct (actions_wellFormed actions (mount w stored))
    as (entries & Hdeck & Hcontent & Hfirst).
  { rewrite mount_nothing_stored by assumption. apply wellFormed_nil. }
  exists entries. rewrite Hdeck. repeat split; try assumption.
  apply exportAllAsCSV_entries.
Qed.

Lemma reachable_deck_shape_witness :
  exists entries,
    cards (session true emptyStorage
             [FileLoaded (mkCompletion (mkFile "a.csv" "Q,A")
                            (mkClock 5 "0.5" (fun _ => 5%N)) true)])
    = map entryJs entries
    /\ startsWithSeparator entries.
Proof.
  destruct (reachable_deck_shape true emptyStorage
              [FileLoaded (mkCompletion (mkFile "a.csv" "Q,A")
                             (mkClock 5 "0.5" (fun _ => 5%N)) true)] eq_refl)
    as (entries & Hdeck & _ & Hfirst & _).
  exists entries. split; [exact Hdeck | exact Hfirst].
Defined.

(** X20. Closing and opening again loses nothing: in a process that started
    with nothing stored and whose writes all went through, whatever was
    done, a fresh process started on the [localStorage] it leaves shows the
    same deck. *)
Theorem restart_same_deck (w : bool) (stored : Storage)
  (actions : list Action) :
  getItem STORAGE_KEY stored = None ->
  forallb writesOk actions = true ->
  cards (mount w (storage (session true stored actions)))
  = cards (session true stored actions).
Proof.
  intros Hnone Hall. unfold session.
  pose proof (actions_synced actions (mount true stored) Hall
                (mount_synced stored)) as Hsync.
  destruct (actions_wellFormed actions (mount true stored))
    as (entries & Hdeck & _).
  { rewrite mount_nothing_stored by assumption. apply wellFormed_nil. }
  unfold synced in Hsync. rewrite Hdeck in *.
  destruct entries as [|e entries].
  - cbn [map snapshotOf] in *. now apply mount_nothing_stored.
  - change (snapshotOf (map entryJs (e :: entries)))
      with (Some (JSON_stringify (JArr (map entryJs (e :: entries))))) in Hsync.
    apply (mount_adopts w _ _ (entryJs e) (map entryJs entries) Hsync).
    now apply JSON_parse_stringify_deck.
Qed.

Lemma restart_same_deck_witness :
  cards (mount true
           (storage (session true emptyStorage
              [FileLoaded (mkCompletion (mkFile "a.csv" "Q,A")
                             (mkClock 5 "0.5" (fun _ => 5%N)) true)])))
  = cards (session true emptyStorage
             [FileLoaded (mkCompletion (mkFile "a.csv" "Q,A")
                            (mkClock 5 "0.5" (fun _ => 5%N)) true)]).
Proof.
  apply (restart_same_deck true emptyStorage
           [FileLoaded (mkCompletion (mkFile "a.csv" "Q,A")
                          (mkClock 5 "0.5" (fun _ => 5%N)) true)]);
    reflexivity.
Defined.

(** ** Witnesses *)

Lemma session_other_keys_witness :
  getItem "theme"
    (storage (session true (setItem "theme" "dark" emptyStorage)
                [FileLoaded (mkCompletion (mkFile "a.csv" "Q,A")
                               (mkClock 5 "0.5" (fun _ => 5%N)) true);
                 Cleared true true]))
  = Some "dark".
Proof.
  apply (session_other_keys true (setItem "theme" "dark" emptyStorage)
           [FileLoaded (mkCompletion (mkFile "a.csv" "Q,A")
                          (mkClock 5 "0.5" (fun _ => 5%N)) true);
            Cleared true true] "theme").
  discriminate.
Defined.

Lemma urlName_shape_witness :
  urlName "https://example.org/decks/" = "https://example.org/decks/".
Proof.
  apply (urlName_shape "https://example.org/decks/"). reflexivity.
Defined.
